(** * dwarf_cfa_stack: a fixed-capacity, allocation-free register-rule table

    Shallow embedding of [Source/dwarf_cfa_stack.h] (plcrashreporter) and
    proofs about its constructor, [add_register] and [get_register_rule].

    Pointers of type [dwarf_cfa_reg_entry_t *] only ever hold [NULL] or the
    address of an element of the member array [_entries]; they are modelled
    as [option nat], [None] for [NULL] and [Some i] for [&_entries[i]]
    ([Some S] is the one-past-the-end address, which may be formed but not
    dereferenced).  The object is a record of its four data members and the
    member functions are computations in a state-and-error monad over it. *)

From stdpp Require Import base numbers option list gmap.

#[local] Set Warnings "-clear-no-such-hyp".

(** ** Data model *)

(** [dwarf_cfa_reg_rule_t]: the enumeration has a single enumerator. *)
Inductive dwarf_cfa_reg_rule_t : Set :=
| DWARF_CFA_REG_RULE_OFFSET.

(** [struct dwarf_cfa_reg_entry]; [regnum] is a [uint32_t], kept as [N]
    (the code only compares it and reduces it modulo the bucket count). *)
Record dwarf_cfa_reg_entry (T : Type) : Type := mk_entry {
  regnum : N;
  rule : dwarf_cfa_reg_rule_t;
  value : T;
  next : option nat
}.
Arguments mk_entry {T} _ _ _ _.
Arguments regnum {T} _.
Arguments rule {T} _.
Arguments value {T} _.
Arguments next {T} _.

(** The data members of [dwarf_cfa_stack<T, S>]; [S] is the length of
    [_entries]. *)
Record dwarf_cfa_stack (T : Type) : Type := mk_stack {
  _table_stack : list (list (option nat));
  _table_pos : nat;
  _free_list : option nat;
  _entries : list (dwarf_cfa_reg_entry T)
}.
Arguments mk_stack {T} _ _ _ _.
Arguments _table_stack {T} _.
Arguments _table_pos {T} _.
Arguments _free_list {T} _.
Arguments _entries {T} _.

(** Outcome of running a member function: a result and the new object
    state, an access outside an array ([Fault], undefined behaviour in the
    source), or a loop that was cut off by the iteration budget. *)
Inductive outcome (A : Type) : Type :=
| Ok (a : A)
| Fault
| OutOfFuel.
Arguments Ok {A} _.
Arguments Fault {A}.
Arguments OutOfFuel {A}.

(** Number of rows and of buckets per row of [_table_stack[6][15]]. *)
Definition TABLE_ROWS : nat := 6.
Definition TABLE_BUCKETS : nat := 15.

(** [SIZE_MAX] of a 64-bit [size_t]. *)
Definition SIZE_MAX : N := 18446744073709551615%N.

(** [S - 1] evaluated in [size_t].  The template argument [S] is itself a
    [size_t], so the subtraction wraps exactly when [S = 0]. *)
Definition size_t_pred (S : nat) : N :=
  match S with
  | O => SIZE_MAX
  | Datatypes.S n => N.of_nat n
  end.

Section Model.
Context {T : Type}.

Abbreviation entry := (dwarf_cfa_reg_entry T).
Abbreviation stack := (dwarf_cfa_stack T).

(** *** The monad *)

Definition M (A : Type) : Type := stack → outcome (A * stack).

Definition ret {A} (a : A) : M A := λ st, Ok (a, st).

Definition bind {A B} (c : M A) (k : A → M B) : M B :=
  λ st, match c st with
        | Ok (a, st') => k a st'
        | Fault => Fault
        | OutOfFuel => OutOfFuel
        end.

Definition out_of_fuel {A} : M A := λ _, OutOfFuel.

Notation "'let*' x ':=' c 'in' k" := (bind c (λ x, k))
  (at level 10, x name, c at level 100, k at level 200, only parsing).
Notation "c ';;' k" := (bind c (λ _, k))
  (at level 100, k at level 200, right associativity, only parsing).

(** *** Field updates of an entry *)

Definition with_regnum (r : N) (e : entry) : entry :=
  mk_entry r (rule e) (value e) (next e).
Definition with_rule (rl : dwarf_cfa_reg_rule_t) (e : entry) : entry :=
  mk_entry (regnum e) rl (value e) (next e).
Definition with_value (v : T) (e : entry) : entry :=
  mk_entry (regnum e) (rule e) v (next e).
Definition with_next (p : option nat) (e : entry) : entry :=
  mk_entry (regnum e) (rule e) (value e) p.

(** *** Memory accesses *)

(** Read of [_entries[i]] (equally [p->field] for [p = &_entries[i]]). *)
Definition load {A} (f : entry → A) (i : nat) : M A :=
  λ st, match _entries st !! i with
        | Some e => Ok (f e, st)
        | None => Fault
        end.

(** Write of one field of [_entries[i]]. *)
Definition store (f : entry → entry) (i : nat) : M unit :=
  λ st, match _entries st !! i with
        | Some e =>
            Ok (tt, mk_stack (_table_stack st) (_table_pos st) (_free_list st)
                             (<[i := f e]> (_entries st)))
        | None => Fault
        end.

(** The subscript [_entries[idx]] for an index computed in [size_t]. *)
Definition subscript (idx : N) : M nat :=
  λ st, if (idx <? N.of_nat (length (_entries st)))%N
        then Ok (N.to_nat idx, st)
        else Fault.

Definition get_free_list : M (option nat) := λ st, Ok (_free_list st, st).
Definition set_free_list (p : option nat) : M unit :=
  λ st, Ok (tt, mk_stack (_table_stack st) (_table_pos st) p (_entries st)).

Definition get_table_pos : M nat := λ st, Ok (_table_pos st, st).
Definition set_table_pos (n : nat) : M unit :=
  λ st, Ok (tt, mk_stack (_table_stack st) n (_free_list st) (_entries st)).

(** Read of [_table_stack[row][bucket]]. *)
Definition table_load (row bucket : nat) : M (option nat) :=
  λ st, match _table_stack st !! row with
        | Some r =>
            match r !! bucket with
            | Some p => Ok (p, st)
            | None => Fault
            end
        | None => Fault
        end.

(** Write of [_table_stack[row][bucket]]. *)
Definition table_store (row bucket : nat) (p : option nat) : M unit :=
  λ st, match _table_stack st !! row with
        | Some r =>
            if decide (bucket < length r)
            then Ok (tt, mk_stack (<[row := <[bucket := p]> r]> (_table_stack st))
                                  (_table_pos st) (_free_list st) (_entries st))
            else Fault
        | None => Fault
        end.

(** Modelled from the spec: [plcrash_async_memset], declared in
    [PLCrashAsync.h] and defined outside this header; the spec
    describes it as an opaque bulk clear that zeroes the given bytes.
    Applied to [_table_stack] with [sizeof(_table_stack)] it leaves every
    one of the 6 x 15 bucket heads a null pointer. *)
Definition plcrash_async_memset_table_stack : M unit :=
  λ st, Ok (tt, mk_stack (replicate TABLE_ROWS (replicate TABLE_BUCKETS None))
                         (_table_pos st) (_free_list st) (_entries st)).

(** *** Constructor *)

(** [for (size_t i = 0; i < S; i++) _entries[i].next = &_entries[i+1];]
    run over the successive values of [i] listed in [idxs]. *)
Fixpoint ctor_thread (idxs : list nat) : M unit :=
  match idxs with
  | [] => ret tt
  | i :: idxs' => store (with_next (Some (i + 1))) i;; ctor_thread idxs'
  end.

Definition dwarf_cfa_stack_ctor (S : nat) : M unit :=
  (* Initialize the free list *)
  ctor_thread (seq 0 S);;
  let* last := subscript (size_t_pred S) in
  store (with_next None) last;;
  set_free_list (Some 0);;
  (* Set up the table *)
  set_table_pos 0;;
  plcrash_async_memset_table_stack.

(** *** add_register *)

(** [regnum % (sizeof(_table_stack[_table_pos]) / sizeof(_table_stack[_table_pos][0]))] *)
Definition bucket_of (r : N) : nat := N.to_nat (r mod N.of_nat TABLE_BUCKETS).

(** The search loop of [add_register].  [inl b]: the function returned
    [b] from inside the loop; [inr parent]: the loop was left with this
    value of [parent].  [fuel] bounds the number of executions of the
    loop body. *)
Fixpoint add_register_walk (fuel : nat) (r : N) (rl : dwarf_cfa_reg_rule_t)
    (v : T) (parent : option nat) : M (bool + option nat) :=
  match parent with
  | None => ret (inr None)
  | Some p =>
      match fuel with
      | O => out_of_fuel
      | Datatypes.S fuel' =>
          let* r' := load regnum p in
          if (r' =? r)%N then
            store (with_value v) p;;
            store (with_rule rl) p;;
            ret (inl true)
          else
            let* nx := load next p in
            match nx with
            | None => ret (inr (Some p))
            | Some _ => add_register_walk fuel' r rl v nx
            end
      end
  end.

Definition add_register (fuel : nat) (r : N) (rl : dwarf_cfa_reg_rule_t)
    (v : T) : M bool :=
  let bucket := bucket_of r in
  let* pos := get_table_pos in
  let* head := table_load pos bucket in
  let* w := add_register_walk fuel r rl v head in
  match w with
  | inl b => ret b
  | inr parent =>
      (* Fetch a free entry *)
      let* entry := get_free_list in
      match entry with
      | None => ret false
      | Some e =>
          let* nx := load next e in
          set_free_list nx;;
          (* Initialize the entry *)
          store (with_regnum r) e;;
          store (with_rule rl) e;;
          store (with_value v) e;;
          store (with_next None) e;;
          (* Either insert in the parent, or insert as the first table element *)
          match parent with
          | None =>
              let* pos' := get_table_pos in
              table_store pos' bucket (Some e)
          | Some p => store (with_next (Some e)) p
          end;;
          ret true
      end
  end.

(** *** get_register_rule *)

(** The out-parameters [*rule] and [*value] are returned: [Some (rule,
    value)] with a [true] result, [None] with [false] (they are not
    written then). *)
Fixpoint get_register_rule_walk (fuel : nat) (r : N) (entry : option nat)
    : M (option (dwarf_cfa_reg_rule_t * T)) :=
  match entry with
  | None => ret None
  | Some e =>
      match fuel with
      | O => out_of_fuel
      | Datatypes.S fuel' =>
          let* r' := load regnum e in
          if negb (r' =? r)%N then
            let* nx := load next e in
            get_register_rule_walk fuel' r nx
          else
            let* v := load value e in
            let* rl := load rule e in
            ret (Some (rl, v))
      end
  end.

Definition get_register_rule (fuel : nat) (r : N)
    : M (option (dwarf_cfa_reg_rule_t * T)) :=
  let bucket := bucket_of r in
  let* pos := get_table_pos in
  let* head := table_load pos bucket in
  get_register_rule_walk fuel r head.

(** *** Sequences of calls *)

(** One [add_register] call per element, in order; the flags returned. *)
Fixpoint add_registers (fuel : nat)
    (ops : list (N * (dwarf_cfa_reg_rule_t * T))) : M (list bool) :=
  match ops with
  | [] => ret []
  | (r, (rl, v)) :: ops' =>
      let* b := add_register fuel r rl v in
      let* bs := add_registers fuel ops' in
      ret (b :: bs)
  end.

End Model.

(** ** Chains, abstraction and reachable states *)

(** [chain es p l]: following [next] from the pointer [p] visits exactly
    the entries with indices [l], in this order, and ends at [NULL]. *)
Inductive chain {T} (es : list (dwarf_cfa_reg_entry T))
  : option nat → list nat → Prop :=
| chain_null : chain es None []
| chain_link i e l :
    es !! i = Some e → chain es (next e) l → chain es (Some i) (i :: l).

(** Index of the first entry of the chain [l] that carries [r]. *)
Fixpoint find_chain {T} (es : list (dwarf_cfa_reg_entry T)) (r : N)
    (l : list nat) : option nat :=
  match l with
  | [] => None
  | i :: l' =>
      match es !! i with
      | Some e => if (regnum e =? r)%N then Some i else find_chain es r l'
      | None => None
      end
  end.

(** The [(rule, value)] pair held by entry [i]. *)
Definition payload {T} (es : list (dwarf_cfa_reg_entry T)) (i : nat)
    : option (dwarf_cfa_reg_rule_t * T) :=
  e ← es !! i; Some (rule e, value e).

(** The register number held by entry [i] (0 outside the array). *)
Definition regnum_at {T} (es : list (dwarf_cfa_reg_entry T)) (i : nat) : N :=
  default 0%N (regnum <$> es !! i).

(** Entry [i] is linked into a bucket chain of row [row]. *)
Definition in_row {T} (st : dwarf_cfa_stack T) (row i : nat) : Prop :=
  ∃ heads b head l,
    _table_stack st !! row = Some heads ∧ heads !! b = Some head
    ∧ chain (_entries st) head l ∧ i ∈ l.

(** [add_register] of [r] took the entry at the head of the free list of
    [st] and linked it at the end of the bucket chain of [r], as the bucket
    head when that chain was empty; the chain's earlier entries keep their
    places. *)
Definition appended {T} (st st' : dwarf_cfa_stack T) (r : N) : Prop :=
  ∃ head l e,
    table_load (_table_pos st) (bucket_of r) st = Ok (head, st)
    ∧ chain (_entries st) head l
    ∧ _free_list st = Some e
    ∧ table_load (_table_pos st') (bucket_of r) st'
      = Ok (if l is [] then Some e else head, st')
    ∧ chain (_entries st') (if l is [] then Some e else head) (l ++ [e])
    ∧ regnum_at (_entries st') e = r.

(** The state after [parent->value = value; parent->rule = rule] on
    entry [i]. *)
Definition updated {T} (st : dwarf_cfa_stack T) (i : nat)
    (rl : dwarf_cfa_reg_rule_t) (v : T) : dwarf_cfa_stack T :=
  mk_stack (_table_stack st) (_table_pos st) (_free_list st)
    (alter (λ e, mk_entry (regnum e) rl v (next e)) i (_entries st)).

(** What the constructor leaves in entry [i] of a pool of [S] entries:
    the link to entry [i + 1], or [NULL] in the last entry. *)
Definition ctor_entry {T} (S i : nat) (e : dwarf_cfa_reg_entry T)
    : dwarf_cfa_reg_entry T :=
  with_next (if decide (i + 1 = S) then None else Some (i + 1)) e.

(** The representation invariant.  [m] is the finite map from register
    numbers to [(rule, value)] that the object stands for, [fl] lists the
    entries on the free list and [chs] the entries of each of the 15 bucket
    chains of row 0, in chain order. *)
Record Inv {T} (S : nat) (st : dwarf_cfa_stack T)
    (m : gmap N (dwarf_cfa_reg_rule_t * T)) (fl : list nat)
    (chs : list (list nat)) : Prop := mk_Inv {
  inv_length : length (_entries st) = S;
  inv_pos : _table_pos st = 0;
  inv_rows :
    ∃ row0,
      _table_stack st = row0 :: replicate 5 (replicate TABLE_BUCKETS None)
      ∧ Forall2 (chain (_entries st)) row0 chs;
  inv_buckets : length chs = TABLE_BUCKETS;
  inv_free : chain (_entries st) (_free_list st) fl;
  inv_perm : fl ++ mjoin chs ≡ₚ seq 0 S;
  inv_place :
    ∀ b l i, chs !! b = Some l → i ∈ l →
             bucket_of (regnum_at (_entries st) i) = b;
  inv_uniq :
    ∀ i j, i ∈ mjoin chs → j ∈ mjoin chs →
           regnum_at (_entries st) i = regnum_at (_entries st) j → i = j;
  inv_abs :
    ∀ r x, m !! r = Some x ↔
           ∃ i, i ∈ mjoin chs ∧ regnum_at (_entries st) i = r
                ∧ payload (_entries st) i = Some x;
  inv_size : size m + length fl = S
}.

(** The effect of [add_register] on the map an object stands for: the
    binding is written when the register is present or an entry is free,
    and the call fails, changing nothing, otherwise. *)
Definition abs_add {T} (S : nat) (m : gmap N (dwarf_cfa_reg_rule_t * T))
    (r : N) (x : dwarf_cfa_reg_rule_t * T)
    : bool * gmap N (dwarf_cfa_reg_rule_t * T) :=
  if decide (is_Some (m !! r) ∨ size m < S)
  then (true, <[r := x]> m)
  else (false, m).

Fixpoint abs_adds {T} (S : nat) (m : gmap N (dwarf_cfa_reg_rule_t * T))
    (ops : list (N * (dwarf_cfa_reg_rule_t * T)))
    : list bool * gmap N (dwarf_cfa_reg_rule_t * T) :=
  match ops with
  | [] => ([], m)
  | (r, x) :: ops' =>
      let '(b, m1) := abs_add S m r x in
      let '(bs, m2) := abs_adds S m1 ops' in
      (b :: bs, m2)
  end.

(** The [(rule, value)] arguments of the last call for [r] in a sequence
    of [add_register] calls. *)
Fixpoint last_write {T} (r : N) (ops : list (N * (dwarf_cfa_reg_rule_t * T)))
    : option (dwarf_cfa_reg_rule_t * T) :=
  match ops with
  | [] => None
  | (r', x) :: ops' =>
      match last_write r ops' with
      | Some y => Some y
      | None => if decide (r' = r) then Some x else None
      end
  end.

(** The map written by a sequence of successful [add_register] calls. *)
Definition written {T} (m : gmap N (dwarf_cfa_reg_rule_t * T))
    (ops : list (N * (dwarf_cfa_reg_rule_t * T)))
    : gmap N (dwarf_cfa_reg_rule_t * T) :=
  foldl (λ m op, <[op.1 := op.2]> m) m ops.

(** Number of distinct register numbers in a sequence of calls. *)
Definition distinct_regnums {T}
    (ops : list (N * (dwarf_cfa_reg_rule_t * T))) : nat :=
  size (list_to_set ops.*1 : gset N).

(** States of a [dwarf_cfa_stack<T, S>] object: the constructor run on
    storage holding [S] entries of arbitrary contents, followed by any
    calls of the two member functions that returned. *)
Inductive reachable {T} (S : nat) : dwarf_cfa_stack T → Prop :=
| reach_ctor raw st :
    length (_entries raw) = S →
    dwarf_cfa_stack_ctor S raw = Ok (tt, st) →
    reachable S st
| reach_add st fuel r rl v b st' :
    reachable S st →
    add_register fuel r rl v st = Ok (b, st') →
    reachable S st'
| reach_get st fuel r res st' :
    reachable S st →
    get_register_rule fuel r st = Ok (res, st') →
    reachable S st'.

(** The distinct register numbers of [rs] in the order of their first
    occurrence, appended to the numbers [seen] so far. *)
Fixpoint first_distinct_from (seen rs : list N) : list N :=
  match rs with
  | [] => seen
  | r :: rs' =>
      first_distinct_from (if decide (r ∈ seen) then seen else seen ++ [r]) rs'
  end.

(** The first [S] distinct register numbers of a sequence of calls. *)
Definition admitted (S : nat) (rs : list N) : list N :=
  take S (first_distinct_from [] rs).

(** The bucket head [_table_stack[row][b]], when both indices are in
    range. *)
Definition bucket_head {T} (st : dwarf_cfa_stack T) (row b : nat)
    : option (option nat) :=
  _table_stack st !! row ≫= (.!! b).

(** ** Example objects: [dwarf_cfa_stack<int64_t, 2>] and [<int64_t, 0>] *)

(** Storage of two entries before construction; the contents are
    arbitrary. *)
Definition raw2 : dwarf_cfa_stack Z :=
  mk_stack [] 7 (Some 1)
    [mk_entry 99 DWARF_CFA_REG_RULE_OFFSET (-1)%Z (Some 0);
     mk_entry 98 DWARF_CFA_REG_RULE_OFFSET (-2)%Z (Some 5)].

(** The object the constructor makes of [raw2]. *)
Definition fresh2 : dwarf_cfa_stack Z :=
  mk_stack (replicate TABLE_ROWS (replicate TABLE_BUCKETS None)) 0 (Some 0)
    [mk_entry 99 DWARF_CFA_REG_RULE_OFFSET (-1)%Z (Some 1);
     mk_entry 98 DWARF_CFA_REG_RULE_OFFSET (-2)%Z None].

(** Storage of a pool without entries. *)
Definition raw0 : dwarf_cfa_stack Z := mk_stack [] 7 (Some 1) [].

(** Registers 5 and 20 share bucket 5; register 5 is written twice. *)
Definition ops2 : list (N * (dwarf_cfa_reg_rule_t * Z)) :=
  [(5%N, (DWARF_CFA_REG_RULE_OFFSET, 8%Z));
   (20%N, (DWARF_CFA_REG_RULE_OFFSET, 16%Z));
   (5%N, (DWARF_CFA_REG_RULE_OFFSET, 24%Z))].

(** [fresh2] after the calls of [ops2]. *)
Definition full2 : dwarf_cfa_stack Z :=
  mk_stack
    (<[5 := Some 0]> (replicate TABLE_BUCKETS None)
       :: replicate 5 (replicate TABLE_BUCKETS None))
    0 None
    [mk_entry 5 DWARF_CFA_REG_RULE_OFFSET 24%Z (Some 1);
     mk_entry 20 DWARF_CFA_REG_RULE_OFFSET 16%Z None].

(** [fresh2] after [add_register(5, OFFSET, 8)], and after a further
    [add_register(20, OFFSET, 16)]. *)
Definition one2 : dwarf_cfa_stack Z :=
  mk_stack
    (<[5 := Some 0]> (replicate TABLE_BUCKETS None)
       :: replicate 5 (replicate TABLE_BUCKETS None))
    0 (Some 1)
    [mk_entry 5 DWARF_CFA_REG_RULE_OFFSET 8%Z None;
     mk_entry 98 DWARF_CFA_REG_RULE_OFFSET (-2)%Z None].

Definition two2 : dwarf_cfa_stack Z :=
  mk_stack
    (<[5 := Some 0]> (replicate TABLE_BUCKETS None)
       :: replicate 5 (replicate TABLE_BUCKETS None))
    0 None
    [mk_entry 5 DWARF_CFA_REG_RULE_OFFSET 8%Z (Some 1);
     mk_entry 20 DWARF_CFA_REG_RULE_OFFSET 16%Z None].

(** A pool of one entry: its storage, the constructed object, and the
    object holding register 3 with value [v]. *)
Definition raw1 : dwarf_cfa_stack Z :=
  mk_stack [] 0 None [mk_entry 0 DWARF_CFA_REG_RULE_OFFSET 0%Z (Some 9)].

Definition fresh1 : dwarf_cfa_stack Z :=
  mk_stack (replicate TABLE_ROWS (replicate TABLE_BUCKETS None)) 0 (Some 0)
    [mk_entry 0 DWARF_CFA_REG_RULE_OFFSET 0%Z None].

Definition stored1 (v : Z) : dwarf_cfa_stack Z :=
  mk_stack
    (<[3 := Some 0]> (replicate TABLE_BUCKETS None)
       :: replicate 5 (replicate TABLE_BUCKETS None))
    0 None
    [mk_entry 3 DWARF_CFA_REG_RULE_OFFSET v None].

(** Four calls on a pool of two entries: register 7 arrives when the
    pool is full, register 5 is written again afterwards. *)
Definition ops_overflow : list (N * (dwarf_cfa_reg_rule_t * Z)) :=
  [(5%N, (DWARF_CFA_REG_RULE_OFFSET, 8%Z));
   (20%N, (DWARF_CFA_REG_RULE_OFFSET, 16%Z));
   (7%N, (DWARF_CFA_REG_RULE_OFFSET, 4%Z));
   (5%N, (DWARF_CFA_REG_RULE_OFFSET, 24%Z))].

Section Proofs.
Context {T : Type}.
Implicit Types (es : list (dwarf_cfa_reg_entry T)).
Implicit Types (st raw : dwarf_cfa_stack T).
Implicit Types (p : option nat) (l : list nat) (r : N) (v : T).
Implicit Types (rl : dwarf_cfa_reg_rule_t).

Lemma chain_lookup es p l i : chain es p l → i ∈ l → is_Some (es !! i).
Proof.
  induction 1 as [|j e l Hj _ IH]; intros Hi.
  - by apply elem_of_nil in Hi.
  - apply elem_of_cons in Hi as [->|Hi]; eauto.
Qed.

Lemma chain_frame es es' p l :
  chain es p l →
  (∀ i e, i ∈ l → es !! i = Some e →
          ∃ e', es' !! i = Some e' ∧ next e' = next e) →
  chain es' p l.
Proof.
  induction 1 as [|j e l Hj _ IH]; intros Hsame.
  - constructor.
  - destruct (Hsame j e) as (e' & Hj' & Hnx); [left|done|].
    econstructor; [done|]. rewrite Hnx. apply IH.
    intros i ei Hi. apply Hsame. by right.
Qed.

Lemma chain_functional es p l l' : chain es p l → chain es p l' → l = l'.
Proof.
  intros H. revert l'. induction H as [|j e l Hj _ IH]; intros l' H'.
  - by inversion H'.
  - inversion H' as [|j' e' l'' Hj' Hc]; subst.
    rewrite Hj in Hj'. injection Hj' as <-. f_equal. by apply IH.
Qed.

Lemma chain_last_next es p l i e :
  chain es p l → last l = Some i → es !! i = Some e → next e = None.
Proof.
  induction 1 as [|j e' l Hj Hc IH]; intros Hl Hi; [done|].
  destruct l as [|k l].
  - simpl in Hl. injection Hl as ->. rewrite Hj in Hi. injection Hi as ->.
    by inversion Hc.
  - rewrite last_cons_cons in Hl. by apply IH.
Qed.

Lemma chain_cons_inv es p i l :
  chain es p (i :: l) →
  p = Some i ∧ ∃ e, es !! i = Some e ∧ chain es (next e) l.
Proof. inversion 1; eauto. Qed.

Lemma chain_head es p l : chain es p l → p = head l.
Proof. by destruct 1. Qed.

(** Equations of the memory accesses under [bind]. *)
Lemma bind_load {A B} (f : dwarf_cfa_reg_entry T → A) (k : A → M B) i e st :
  _entries st !! i = Some e → bind (load f i) k st = k (f e) st.
Proof. intros Hi. unfold bind, load. by rewrite Hi. Qed.

Lemma bind_store {B} (f : dwarf_cfa_reg_entry T → dwarf_cfa_reg_entry T)
    (k : unit → M B) i e st :
  _entries st !! i = Some e →
  bind (store f i) k st
  = k tt (mk_stack (_table_stack st) (_table_pos st) (_free_list st)
            (<[i := f e]> (_entries st))).
Proof. intros Hi. unfold bind, store. by rewrite Hi. Qed.

Lemma insert_as_alter es i e (f : dwarf_cfa_reg_entry T → dwarf_cfa_reg_entry T) :
  es !! i = Some e → <[i := f e]> es = alter f i es.
Proof.
  intros Hi. apply list_eq. intros j. destruct (decide (i = j)) as [<-|Hne].
  - rewrite list_lookup_insert_eq by (by eapply lookup_lt_Some).
    by rewrite list_lookup_alter_eq, Hi.
  - by rewrite list_lookup_insert_ne, list_lookup_alter_ne.
Qed.

(** The search loop of [get_register_rule] on a well-formed chain. *)
Lemma get_walk_spec st fuel r p l :
  chain (_entries st) p l → length l ≤ fuel →
  get_register_rule_walk fuel r p st
  = Ok (find_chain (_entries st) r l ≫= payload (_entries st), st).
Proof.
  intros Hc. revert fuel.
  induction Hc as [|i e l Hi Hc IH]; intros fuel Hfuel.
  - by destruct fuel.
  - destruct fuel as [|fuel]; simpl in Hfuel; [lia|].
    simpl. rewrite (bind_load _ _ _ _ _ Hi), Hi.
    destruct (regnum e =? r)%N eqn:Hr; simpl.
    + rewrite (bind_load _ _ _ _ _ Hi), (bind_load _ _ _ _ _ Hi).
      unfold payload. by rewrite Hi.
    + rewrite (bind_load _ _ _ _ _ Hi). apply IH. lia.
Qed.

(** The search loop of [add_register] on a well-formed chain. *)
Lemma add_walk_spec st fuel r rl v p l :
  chain (_entries st) p l → length l ≤ fuel →
  add_register_walk fuel r rl v p st
  = match find_chain (_entries st) r l with
    | Some i => Ok (inl true, updated st i rl v)
    | None => Ok (inr (last l), st)
    end.
Proof.
  intros Hc. revert fuel.
  induction Hc as [|i e l Hi Hc IH]; intros fuel Hfuel.
  - by destruct fuel.
  - destruct fuel as [|fuel]; simpl in Hfuel; [lia|].
    simpl. rewrite (bind_load _ _ _ _ _ Hi), Hi.
    destruct (regnum e =? r)%N eqn:Hr.
    + rewrite (bind_store _ _ _ _ _ Hi).
      erewrite bind_store
        by (simpl; apply list_lookup_insert_eq; by eapply lookup_lt_Some).
      unfold ret, updated; simpl. do 3 f_equal.
      rewrite list_insert_insert_eq.
      by rewrite <- (insert_as_alter _ _ e).
    + rewrite (bind_load _ _ _ _ _ Hi).
      inversion Hc as [Hnx|k ek l' Hk Hc' Hnx]; subst.
      * done.
      * rewrite <- Hnx in IH. rewrite IH by lia. by rewrite last_cons_cons.
Qed.

Lemma find_chain_Some es r l i :
  find_chain es r l = Some i →
  i ∈ l ∧ regnum_at es i = r ∧ is_Some (es !! i).
Proof.
  induction l as [|j l IH]; simpl; [done|].
  destruct (es !! j) as [e|] eqn:Hj; [|done].
  destruct (regnum e =? r)%N eqn:Hr.
  - intros [= <-]. apply N.eqb_eq in Hr. unfold regnum_at. rewrite Hj.
    split; [left|by eauto].
  - intros (? & ? & ?)%IH. split; [by right|done].
Qed.

Lemma find_chain_None es r l i :
  find_chain es r l = None → (∀ j, j ∈ l → is_Some (es !! j)) →
  i ∈ l → regnum_at es i ≠ r.
Proof.
  induction l as [|j l IH]; simpl; intros Hf Hall Hi.
  - by apply elem_of_nil in Hi.
  - destruct (Hall j) as [e Hj]; [left|]. rewrite Hj in Hf.
    destruct (regnum e =? r)%N eqn:Hr; [done|].
    apply elem_of_cons in Hi as [->|Hi].
    + unfold regnum_at. rewrite Hj. simpl. by apply N.eqb_neq.
    + apply IH; [done| |done]. intros k Hk. apply Hall. by right.
Qed.

Lemma chain_snoc es es' h l (q e : nat) :
  chain es h l → NoDup l → last l = Some q →
  (∀ j ej, j ∈ l → j ≠ q → es !! j = Some ej →
           ∃ ej', es' !! j = Some ej' ∧ next ej' = next ej) →
  (∃ ep', es' !! q = Some ep' ∧ next ep' = Some e) →
  (∃ ee', es' !! e = Some ee' ∧ next ee' = None) →
  chain es' h (l ++ [e]).
Proof.
  intros Hc Hnd Hlast Hsame (ep' & Hp & Hpn) (ee' & He & Hen).
  induction Hc as [|i ei l Hi Hc IH]; [done|].
  apply NoDup_cons in Hnd as [Hil Hnd].
  destruct l as [|k l].
  - simpl in Hlast. injection Hlast as ->. simpl.
    econstructor; [done|]. rewrite Hpn.
    econstructor; [done|]. rewrite Hen. constructor.
  - rewrite last_cons_cons in Hlast.
    assert (i ≠ q) as Hne.
    { intros ->. apply Hil. by apply last_Some_elem_of. }
    destruct (Hsame i ei) as (ei' & Hi' & Hnx); [left|done..|].
    simpl. econstructor; [done|]. rewrite Hnx. apply IH; [done..|].
    intros j ej Hj. apply Hsame. by right.
Qed.

Lemma join_insert_snoc (chs : list (list nat)) b l e :
  chs !! b = Some l → mjoin (<[b := l ++ [e]]> chs) ≡ₚ e :: mjoin chs.
Proof.
  revert b. induction chs as [|l0 chs IH]; intros [|b] Hb; simplify_eq/=.
  - rewrite <- (assoc_L (++)). simpl. by rewrite <- Permutation_middle.
  - rewrite (IH _ Hb). by rewrite <- Permutation_middle.
Qed.

Lemma join_disjoint (chs : list (list nat)) b b' l l' i :
  NoDup (mjoin chs) → chs !! b = Some l → chs !! b' = Some l' → b ≠ b' →
  i ∈ l → i ∉ l'.
Proof.
  revert b b'. induction chs as [|l0 chs IH]; intros b b' Hnd Hb Hb' Hne Hi Hi';
    [done|].
  simpl in Hnd. apply NoDup_app in Hnd as (_ & Hdisj & Hnd).
  destruct b as [|b], b' as [|b']; simplify_eq/=.
  - apply (Hdisj i Hi). apply list_elem_of_join. exists l'.
    split; [done|]. by eapply list_elem_of_lookup_2.
  - apply (Hdisj i Hi'). apply list_elem_of_join. exists l.
    split; [done|]. by eapply list_elem_of_lookup_2.
  - eapply (IH b b'); eauto.
Qed.

Lemma bucket_of_lt r : bucket_of r < TABLE_BUCKETS.
Proof.
  unfold bucket_of.
  assert (r mod N.of_nat TABLE_BUCKETS < N.of_nat TABLE_BUCKETS)%N
    by (by apply N.mod_lt).
  lia.
Qed.

(** *** The iteration budget only cuts runs off *)

Lemma bind_Ok_inv {A B} (c : M A) (k : A → M B) st x :
  bind c k st = Ok x → ∃ a st', c st = Ok (a, st') ∧ k a st' = Ok x.
Proof. unfold bind. destruct (c st) as [[a st']| |]; [eauto|done..]. Qed.

Lemma bind_Ok {A B} (c : M A) (k : A → M B) st a st' :
  c st = Ok (a, st') → bind c k st = k a st'.
Proof. unfold bind. by intros ->. Qed.

Lemma add_register_walk_mono fuel fuel' r rl v : ∀ p st x,
  fuel ≤ fuel' →
  add_register_walk fuel r rl v p st = Ok x →
  add_register_walk fuel' r rl v p st = Ok x.
Proof.
  revert fuel'. induction fuel as [|fuel IH]; intros fuel' p st x Hle.
  - destruct p; [by cbv|]. by destruct fuel'.
  - destruct fuel' as [|fuel']; [lia|]. destruct p as [i|]; [|done].
    simpl. intros (r' & st1 & Hld & Hk)%bind_Ok_inv.
    rewrite (bind_Ok _ _ _ _ _ Hld). destruct (r' =? r)%N; [done|].
    apply bind_Ok_inv in Hk as (nx & st2 & Hld2 & Hk).
    rewrite (bind_Ok _ _ _ _ _ Hld2). destruct nx; [|done].
    apply IH; [lia|done].
Qed.

Lemma get_register_rule_walk_mono fuel fuel' r : ∀ p st x,
  fuel ≤ fuel' →
  get_register_rule_walk fuel r p st = Ok x →
  get_register_rule_walk fuel' r p st = Ok x.
Proof.
  revert fuel'. induction fuel as [|fuel IH]; intros fuel' p st x Hle.
  - destruct p; [by cbv|]. by destruct fuel'.
  - destruct fuel' as [|fuel']; [lia|]. destruct p as [i|]; [|done].
    simpl. intros (r' & st1 & Hld & Hk)%bind_Ok_inv.
    rewrite (bind_Ok _ _ _ _ _ Hld). destruct (negb (r' =? r)%N); [|done].
    apply bind_Ok_inv in Hk as (nx & st2 & Hld2 & Hk).
    rewrite (bind_Ok _ _ _ _ _ Hld2). apply IH; [lia|done].
Qed.

Lemma add_register_mono fuel fuel' r rl v st x :
  fuel ≤ fuel' →
  add_register fuel r rl v st = Ok x →
  add_register fuel' r rl v st = Ok x.
Proof.
  intros Hle. unfold add_register.
  intros (pos & st1 & Hpos & Hk)%bind_Ok_inv.
  rewrite (bind_Ok _ _ _ _ _ Hpos).
  apply bind_Ok_inv in Hk as (head & st2 & Hhead & Hk).
  rewrite (bind_Ok _ _ _ _ _ Hhead).
  apply bind_Ok_inv in Hk as (w & st3 & Hw & Hk).
  by rewrite (bind_Ok _ _ _ _ _ (add_register_walk_mono _ _ _ _ _ _ _ _ Hle Hw)).
Qed.

Lemma get_register_rule_mono fuel fuel' r st x :
  fuel ≤ fuel' →
  get_register_rule fuel r st = Ok x →
  get_register_rule fuel' r st = Ok x.
Proof.
  intros Hle. unfold get_register_rule.
  intros (pos & st1 & Hpos & Hk)%bind_Ok_inv.
  rewrite (bind_Ok _ _ _ _ _ Hpos).
  apply bind_Ok_inv in Hk as (head & st2 & Hhead & Hk).
  rewrite (bind_Ok _ _ _ _ _ Hhead).
  by apply (get_register_rule_walk_mono fuel).
Qed.

(** [get_register_rule] writes no member, in any state. *)
Lemma get_register_rule_walk_pure fuel r : ∀ p st res st',
  get_register_rule_walk fuel r p st = Ok (res, st') → st' = st.
Proof.
  assert (Hload : ∀ A (f : dwarf_cfa_reg_entry T → A) i st a st',
            load f i st = Ok (a, st') → st' = st).
  { intros A f i st a st'. unfold load.
    destruct (_entries st !! i); [|done]. by intros [= _ <-]. }
  induction fuel as [|fuel IH]; intros p st res st'.
  - destruct p; [by cbv|]. by intros [= _ <-].
  - destruct p as [i|]; [|by intros [= _ <-]].
    simpl. intros (r' & st1 & Hld & Hk)%bind_Ok_inv.
    apply Hload in Hld as ->. destruct (negb (r' =? r)%N).
    + apply bind_Ok_inv in Hk as (nx & st2 & Hld2 & Hk).
      apply Hload in Hld2 as ->. by eapply IH.
    + apply bind_Ok_inv in Hk as (v & st2 & Hld2 & Hk).
      apply Hload in Hld2 as ->.
      apply bind_Ok_inv in Hk as (rl & st3 & Hld3 & Hk).
      apply Hload in Hld3 as ->. by injection Hk as _ <-.
Qed.

Lemma get_register_rule_pure fuel r st res st' :
  get_register_rule fuel r st = Ok (res, st') → st' = st.
Proof.
  unfold get_register_rule.
  intros (pos & st1 & Hpos & Hk)%bind_Ok_inv. injection Hpos as <- <-.
  apply bind_Ok_inv in Hk as (head & st2 & Hhead & Hk).
  assert (st2 = st) as ->.
  { unfold table_load in Hhead.
    destruct (_table_stack st !! _table_pos st) as [row|]; [|done].
    destruct (row !! bucket_of r); [|done]. by injection Hhead as _ <-. }
  by eapply get_register_rule_walk_pure.
Qed.

Section with_inv.
Context (S : nat) (st : dwarf_cfa_stack T).
Context (m : gmap N (dwarf_cfa_reg_rule_t * T)) (fl : list nat).
Context (chs : list (list nat)).
Context (HI : Inv S st m fl chs).

Lemma Inv_NoDup : NoDup (fl ++ mjoin chs).
Proof. rewrite (inv_perm _ _ _ _ _ HI). apply NoDup_seq. Qed.

Lemma Inv_bound i : i ∈ fl ++ mjoin chs → i < S.
Proof. rewrite (inv_perm _ _ _ _ _ HI), elem_of_seq. lia. Qed.

Lemma Inv_chain_elem b l i : chs !! b = Some l → i ∈ l → i ∈ mjoin chs.
Proof.
  intros Hb Hi. apply list_elem_of_join. exists l. split; [done|].
  by eapply list_elem_of_lookup_2.
Qed.

Lemma Inv_chain_NoDup b l : chs !! b = Some l → NoDup l.
Proof.
  intros Hb. apply take_drop_middle in Hb. pose proof Inv_NoDup as Hnd.
  rewrite <- Hb, join_app in Hnd. simpl in Hnd.
  apply NoDup_app in Hnd as (_ & _ & Hnd).
  apply NoDup_app in Hnd as (_ & _ & Hnd).
  by apply NoDup_app in Hnd as (Hnd & _ & _).
Qed.

Lemma Inv_chain_length b l : chs !! b = Some l → length l ≤ S.
Proof.
  intros Hb.
  assert (∀ i, i ∈ l → i ∈ seq 0 S) as Hsub.
  { intros i Hi. rewrite <- (inv_perm _ _ _ _ _ HI).
    apply elem_of_app. right. by eapply Inv_chain_elem. }
  assert (length l ≤ length (seq 0 S)) as Hle.
  { apply submseteq_length, NoDup_submseteq; [|done].
    by eapply Inv_chain_NoDup. }
  by rewrite length_seq in Hle.
Qed.

Lemma Inv_bucket r :
  ∃ head l,
    table_load (_table_pos st) (bucket_of r) st = Ok (head, st)
    ∧ chs !! bucket_of r = Some l
    ∧ chain (_entries st) head l.
Proof.
  destruct (inv_rows _ _ _ _ _ HI) as (row0 & Hrows & Hch).
  pose proof (bucket_of_lt r) as Hlt.
  rewrite <- (inv_buckets _ _ _ _ _ HI) in Hlt.
  destruct (lookup_lt_is_Some_2 chs _ Hlt) as [l Hl].
  destruct (Forall2_lookup_r _ _ _ _ _ Hch Hl) as (head & Hhead & Hc).
  exists head, l. split_and!; [|done..].
  unfold table_load. rewrite (inv_pos _ _ _ _ _ HI), Hrows. simpl.
  by rewrite Hhead.
Qed.

Lemma Inv_lookup r l :
  chs !! bucket_of r = Some l →
  m !! r = find_chain (_entries st) r l ≫= payload (_entries st).
Proof.
  intros Hl. destruct (Inv_bucket r) as (head & l' & _ & Hl' & Hc).
  rewrite Hl in Hl'. injection Hl' as <-.
  destruct (find_chain (_entries st) r l) as [i|] eqn:Hf; simpl.
  - apply find_chain_Some in Hf as (Hi & Hr & [e He]).
    unfold payload at 1. rewrite He. simpl.
    apply (inv_abs _ _ _ _ _ HI). exists i. split_and!; [|done|].
    + by eapply Inv_chain_elem.
    + unfold payload. by rewrite He.
  - destruct (m !! r) as [x|] eqn:Hm; [|done]. exfalso.
    apply (inv_abs _ _ _ _ _ HI) in Hm as (i & Hi & Hr & _).
    apply list_elem_of_join in Hi as (l' & Hi & Hl').
    apply list_elem_of_lookup in Hl' as [b Hb].
    pose proof (inv_place _ _ _ _ _ HI _ _ _ Hb Hi) as Hpl.
    rewrite Hr in Hpl. subst b. rewrite Hl in Hb. injection Hb as <-.
    eapply find_chain_None; [done| |done..].
    intros j Hj. by eapply chain_lookup.
Qed.

(** [get_register_rule] returns the binding of the abstract map and the
    unchanged object, whenever the budget covers the bucket chain. *)
Lemma get_register_rule_Inv fuel r :
  (∀ l, chs !! bucket_of r = Some l → length l ≤ fuel) →
  get_register_rule fuel r st = Ok (m !! r, st).
Proof.
  intros Hfuel. destruct (Inv_bucket r) as (head & l & Hload & Hl & Hc).
  unfold get_register_rule, bind at 1. unfold get_table_pos.
  unfold bind. rewrite Hload.
  rewrite (get_walk_spec _ _ _ _ _ Hc) by auto.
  by rewrite (Inv_lookup _ _ Hl).
Qed.

Lemma Inv_payload i : i ∈ fl ++ mjoin chs → is_Some (payload (_entries st) i).
Proof.
  intros Hi%Inv_bound. rewrite <- (inv_length _ _ _ _ _ HI) in Hi.
  destruct (lookup_lt_is_Some_2 _ _ Hi) as [e He].
  unfold payload. rewrite He. by eexists.
Qed.

Lemma Inv_lookup_None r i :
  m !! r = None → i ∈ mjoin chs → regnum_at (_entries st) i ≠ r.
Proof.
  intros Hm Hi Hr. destruct (Inv_payload i) as [x Hx].
  { apply elem_of_app. by right. }
  assert (m !! r = Some x) as Hm'; [|by rewrite Hm in Hm'].
  apply (inv_abs _ _ _ _ _ HI). by exists i.
Qed.

(** The in-place update of [add_register]. *)
Lemma Inv_updated r rl v i :
  i ∈ mjoin chs → regnum_at (_entries st) i = r →
  Inv S (updated st i rl v) (<[r := (rl, v)]> m) fl chs.
Proof.
  intros Hi Hr.
  set (f := λ e : dwarf_cfa_reg_entry T, mk_entry (regnum e) rl v (next e)).
  assert (Hreg : ∀ j, regnum_at (alter f i (_entries st)) j
                      = regnum_at (_entries st) j).
  { intros j. unfold regnum_at. destruct (decide (i = j)) as [<-|Hne].
    - rewrite list_lookup_alter_eq. by destruct (_entries st !! i).
    - by rewrite list_lookup_alter_ne. }
  assert (Hch : ∀ p l, chain (_entries st) p l
                       → chain (alter f i (_entries st)) p l).
  { intros p l Hc. eapply chain_frame; [done|]. intros j e _ Hj.
    destruct (decide (i = j)) as [<-|Hne].
    - exists (f e). by rewrite list_lookup_alter_eq, Hj.
    - exists e. by rewrite list_lookup_alter_ne. }
  assert (Hpay : payload (alter f i (_entries st)) i = Some (rl, v)).
  { destruct (Inv_payload i) as [x Hx]; [apply elem_of_app; by right|].
    unfold payload in *. rewrite list_lookup_alter_eq.
    by destruct (_entries st !! i). }
  assert (Hpay' : ∀ j, j ≠ i → payload (alter f i (_entries st)) j
                               = payload (_entries st) j).
  { intros j Hne. unfold payload. by rewrite list_lookup_alter_ne. }
  destruct (inv_rows _ _ _ _ _ HI) as (row0 & Hrows & Hrow0).
  constructor; unfold updated; simpl.
  - rewrite length_alter. exact (inv_length _ _ _ _ _ HI).
  - exact (inv_pos _ _ _ _ _ HI).
  - exists row0. split; [done|]. eapply Forall2_impl; [done|]. apply Hch.
  - exact (inv_buckets _ _ _ _ _ HI).
  - apply Hch, (inv_free _ _ _ _ _ HI).
  - exact (inv_perm _ _ _ _ _ HI).
  - intros b l j Hb Hj. rewrite Hreg. by eapply (inv_place _ _ _ _ _ HI).
  - intros j k Hj Hk. rewrite !Hreg. by apply (inv_uniq _ _ _ _ _ HI).
  - intros r0 x. destruct (decide (r = r0)) as [<-|Hne].
    + rewrite lookup_insert_eq. split.
      * intros [= <-]. exists i. by rewrite Hreg.
      * intros (j & Hj & Hrj & Hx). rewrite Hreg in Hrj.
        assert (j = i) as -> by (apply (inv_uniq _ _ _ _ _ HI); congruence).
        exact (eq_trans (eq_sym Hpay) Hx).
    + rewrite lookup_insert_ne by done. rewrite (inv_abs _ _ _ _ _ HI).
      split; intros (j & Hj & Hrj & Hx); exists j.
      * rewrite Hreg, Hpay'; [done|]. congruence.
      * rewrite Hreg in Hrj. rewrite Hpay' in Hx; [done|]. congruence.
  - rewrite map_size_insert_Some; [exact (inv_size _ _ _ _ _ HI)|].
    destruct (Inv_payload i) as [x Hx]; [apply elem_of_app; by right|].
    assert (m !! r = Some x) as Hm; [|by rewrite Hm].
    apply (inv_abs _ _ _ _ _ HI). by exists i.
Qed.

(** Linking a fresh entry [e], taken from the free list, at the end of
    the bucket chain of [r]. *)
Lemma Inv_inserted st' (e : nat) fl' r rl v l :
  fl = e :: fl' → m !! r = None → chs !! bucket_of r = Some l →
  _table_pos st' = 0 →
  _free_list st' = head fl' →
  length (_entries st') = S →
  _entries st' !! e = Some (mk_entry r rl v None) →
  (∀ j, j ≠ e → last l ≠ Some j → _entries st' !! j = _entries st !! j) →
  (∀ q, last l = Some q →
        _entries st' !! q = with_next (Some e) <$> _entries st !! q) →
  (∀ row0,
     _table_stack st = row0 :: replicate 5 (replicate TABLE_BUCKETS None) →
     _table_stack st'
     = (if last l is Some _ then row0 else <[bucket_of r := Some e]> row0)
         :: replicate 5 (replicate TABLE_BUCKETS None)) →
  Inv S st' (<[r := (rl, v)]> m) fl' (<[bucket_of r := l ++ [e]]> chs).
Proof.
  intros Hfl Hm Hl Hpos Hfree Hlen He Hother Hparent Htable.
  pose proof Inv_NoDup as Hnd. rewrite Hfl in Hnd. simpl in Hnd.
  apply NoDup_cons in Hnd as [Hefresh Hnd].
  apply not_elem_of_app in Hefresh as [Hefl Hechs].
  apply NoDup_app in Hnd as (Hndfl & Hdisj & Hndchs).
  assert (Hlchs : ∀ j, j ∈ l → j ∈ mjoin chs).
  { intros j Hj. by eapply Inv_chain_elem. }
  assert (Hchs' : ∀ j, j ∈ mjoin (<[bucket_of r := l ++ [e]]> chs)
                       ↔ j = e ∨ j ∈ mjoin chs).
  { intros j. by rewrite (join_insert_snoc _ _ _ _ Hl), elem_of_cons. }
  assert (Hview : ∀ j, j ≠ e →
            _entries st' !! j = _entries st !! j
            ∨ _entries st' !! j = with_next (Some e) <$> _entries st !! j).
  { intros j Hj. destruct (decide (last l = Some j)); auto. }
  assert (Hreg : ∀ j, j ≠ e →
            regnum_at (_entries st') j = regnum_at (_entries st) j).
  { intros j Hj. unfold regnum_at.
    destruct (Hview j Hj) as [-> | ->]; [done|].
    by destruct (_entries st !! j). }
  assert (Hpay : ∀ j, j ≠ e →
            payload (_entries st') j = payload (_entries st) j).
  { intros j Hj. unfold payload.
    destruct (Hview j Hj) as [-> | ->]; [done|].
    by destruct (_entries st !! j). }
  assert (Hrege : regnum_at (_entries st') e = r).
  { unfold regnum_at. by rewrite He. }
  assert (Hpaye : payload (_entries st') e = Some (rl, v)).
  { unfold payload. by rewrite He. }
  assert (Hframe : ∀ h k, chain (_entries st) h k →
            (∀ j, j ∈ k → j ≠ e ∧ last l ≠ Some j) →
            chain (_entries st') h k).
  { intros h k Hc Hk. eapply chain_frame; [done|]. intros j ej Hj Hej.
    destruct (Hk j Hj) as [? ?]. exists ej. by rewrite Hother. }
  destruct (inv_rows _ _ _ _ _ HI) as (row0 & Hrows & Hrow0).
  constructor.
  - done.
  - done.
  - eexists. split; [by apply Htable|].
    pose proof (Forall2_length _ _ _ Hrow0) as Hlen0.
    apply Forall2_same_length_lookup_2.
    { destruct (last l); by rewrite ?length_insert. }
    intros b h k Hh Hk. destruct (decide (b = bucket_of r)) as [->|Hb].
    + rewrite list_lookup_insert_eq in Hk by (by eapply lookup_lt_Some).
      injection Hk as <-.
      destruct (Forall2_lookup_r _ _ _ _ _ Hrow0 Hl) as (h0 & Hh0 & Hc0).
      destruct (last l) as [q|] eqn:Hlast.
      * rewrite Hh0 in Hh. injection Hh as <-.
        assert (q ∈ l) as Hq by (by apply last_Some_elem_of).
        destruct (chain_lookup _ _ _ _ Hc0 Hq) as [eq Heq].
        eapply (chain_snoc _ _ _ _ q e Hc0); [|done| | |by eauto].
        -- apply take_drop_middle in Hl. rewrite <- Hl, join_app in Hndchs.
           simpl in Hndchs. apply NoDup_app in Hndchs as (_ & _ & Hndchs).
           by apply NoDup_app in Hndchs as (? & _ & _).
        -- intros j ej Hj Hjq Hej. exists ej. rewrite Hother; [done| |].
           ++ intros ->. by apply Hechs, Hlchs.
           ++ congruence.
        -- exists (with_next (Some e) eq). by rewrite (Hparent q), Heq.
      * apply last_None in Hlast. subst l.
        rewrite list_lookup_insert_eq in Hh by (by eapply lookup_lt_Some).
        injection Hh as <-. simpl. econstructor; [done|]. constructor.
    + rewrite list_lookup_insert_ne in Hk by done.
      assert (row0 !! b = Some h) as Hh'.
      { destruct (last l); [done|]. by rewrite list_lookup_insert_ne in Hh. }
      apply Hframe; [by eapply Forall2_lookup_lr|].
      intros j Hj. split.
      * intros ->. apply Hechs. by eapply Inv_chain_elem.
      * intros Hlast%last_Some_elem_of.
        by eapply (join_disjoint chs (bucket_of r) b l k j).
  - rewrite length_insert. exact (inv_buckets _ _ _ _ _ HI).
  - rewrite Hfree. pose proof (inv_free _ _ _ _ _ HI) as Hc.
    rewrite Hfl in Hc. apply chain_cons_inv in Hc as (_ & ee & Hee & Hc').
    rewrite (chain_head _ _ _ Hc') in Hc'. apply Hframe; [done|].
    intros j Hj. split; [by intros ->|].
    intros Hlast%last_Some_elem_of. by apply (Hdisj j Hj), Hlchs.
  - rewrite (join_insert_snoc _ _ _ _ Hl), <- Permutation_middle.
    pose proof (inv_perm _ _ _ _ _ HI) as Hp. by rewrite Hfl in Hp.
  - intros b k j Hk Hj. destruct (decide (b = bucket_of r)) as [->|Hb].
    + rewrite list_lookup_insert_eq in Hk by (by eapply lookup_lt_Some).
      injection Hk as <-. apply elem_of_app in Hj as [Hj|Hj].
      * rewrite Hreg; [by eapply (inv_place _ _ _ _ _ HI)|].
        intros ->. by apply Hechs, Hlchs.
      * apply list_elem_of_singleton in Hj as ->. by rewrite Hrege.
    + rewrite list_lookup_insert_ne in Hk by done.
      rewrite Hreg; [by eapply (inv_place _ _ _ _ _ HI)|].
      intros ->. apply Hechs. by eapply Inv_chain_elem.
  - intros i j [->|Hi]%Hchs' [->|Hj]%Hchs'; [done|..].
    + rewrite Hrege, Hreg by congruence. intros Hr. exfalso.
      by eapply Inv_lookup_None.
    + rewrite Hrege, Hreg by congruence. intros Hr. exfalso.
      by eapply Inv_lookup_None.
    + rewrite !Hreg by congruence. by apply (inv_uniq _ _ _ _ _ HI).
  - intros r0 x. destruct (decide (r = r0)) as [<-|Hne].
    + rewrite lookup_insert_eq. split.
      * intros [= <-]. exists e. rewrite Hchs'. auto.
      * intros (j & [->|Hj]%Hchs' & Hrj & Hx); [congruence|].
        rewrite Hreg in Hrj by congruence. exfalso.
        by eapply Inv_lookup_None.
    + rewrite lookup_insert_ne by done. rewrite (inv_abs _ _ _ _ _ HI).
      split.
      * intros (j & Hj & Hrj & Hx). exists j.
        assert (j ≠ e) by congruence.
        rewrite Hchs', Hreg, Hpay by done. auto.
      * intros (j & [->|Hj]%Hchs' & Hrj & Hx); [congruence|].
        assert (j ≠ e) by congruence.
        exists j. rewrite Hreg in Hrj by done. by rewrite Hpay in Hx.
  - rewrite map_size_insert_None by done.
    pose proof (inv_size _ _ _ _ _ HI) as Hsz. rewrite Hfl in Hsz.
    simpl in Hsz. lia.
Qed.

Lemma add_register_search fuel r rl v :
  (∀ l, chs !! bucket_of r = Some l → length l ≤ fuel) →
  ∃ head l,
    chs !! bucket_of r = Some l
    ∧ chain (_entries st) head l
    ∧ m !! r = find_chain (_entries st) r l ≫= payload (_entries st)
    ∧ add_register fuel r rl v st
      = bind (add_register_walk fuel r rl v head)
          (λ w, match w with
                | inl b => ret b
                | inr parent =>
                    bind get_free_list (λ entry,
                      match entry with
                      | None => ret false
                      | Some e =>
                          bind (load next e) (λ nx,
                          bind (set_free_list nx) (λ _,
                          bind (store (with_regnum r) e) (λ _,
                          bind (store (with_rule rl) e) (λ _,
                          bind (store (with_value v) e) (λ _,
                          bind (store (with_next None) e) (λ _,
                          bind match parent with
                               | None =>
                                   bind get_table_pos (λ pos',
                                     table_store pos' (bucket_of r) (Some e))
                               | Some q => store (with_next (Some e)) q
                               end (λ _, ret true)))))))
                      end)
                end) st.
Proof.
  intros Hfuel. destruct (Inv_bucket r) as (head & l & Hload & Hl & Hc).
  exists head, l. split_and!; [done|done|by apply Inv_lookup|].
  unfold add_register, bind at 1. unfold get_table_pos.
  unfold bind at 1. by rewrite Hload.
Qed.

(** [add_register] of a register that is present: in-place update. *)
Lemma add_register_update fuel r rl v x :
  (∀ l, chs !! bucket_of r = Some l → length l ≤ fuel) →
  m !! r = Some x →
  ∃ i, i ∈ mjoin chs ∧ regnum_at (_entries st) i = r
       ∧ add_register fuel r rl v st = Ok (true, updated st i rl v).
Proof.
  intros Hfuel Hm.
  destruct (add_register_search fuel r rl v Hfuel)
    as (head & l & Hl & Hc & Hfind & ->).
  unfold bind at 1. rewrite (add_walk_spec _ _ _ _ _ _ _ Hc) by auto.
  rewrite Hm in Hfind.
  destruct (find_chain (_entries st) r l) as [i|] eqn:Hf; [|done].
  apply find_chain_Some in Hf as (Hi & Hr & _).
  exists i. split_and!; [by eapply Inv_chain_elem|done..].
Qed.

(** [add_register] of an absent register with an empty free list. *)
Lemma add_register_exhausted fuel r rl v :
  (∀ l, chs !! bucket_of r = Some l → length l ≤ fuel) →
  m !! r = None → fl = [] →
  add_register fuel r rl v st = Ok (false, st).
Proof.
  intros Hfuel Hm Hfl.
  destruct (add_register_search fuel r rl v Hfuel)
    as (head & l & Hl & Hc & Hfind & ->).
  unfold bind at 1. rewrite (add_walk_spec _ _ _ _ _ _ _ Hc) by auto.
  rewrite Hm in Hfind.
  destruct (find_chain (_entries st) r l) as [i|] eqn:Hf.
  { apply find_chain_Some in Hf as (Hi & _ & [e He]).
    simpl in Hfind. unfold payload in Hfind. by rewrite He in Hfind. }
  pose proof (inv_free _ _ _ _ _ HI) as Hfree. rewrite Hfl in Hfree.
  apply chain_head in Hfree. simpl in Hfree.
  unfold bind, get_free_list. by rewrite Hfree.
Qed.

(** [add_register] of an absent register with a free entry [e]. *)
Lemma add_register_insert fuel r rl v (e : nat) fl' l :
  (∀ l, chs !! bucket_of r = Some l → length l ≤ fuel) →
  m !! r = None → fl = e :: fl' → chs !! bucket_of r = Some l →
  ∃ st',
    add_register fuel r rl v st = Ok (true, st')
    ∧ Inv S st' (<[r := (rl, v)]> m) fl' (<[bucket_of r := l ++ [e]]> chs)
    ∧ _entries st' !! e = Some (mk_entry r rl v None).
Proof.
  intros Hfuel Hm Hfl Hl.
  destruct (add_register_search fuel r rl v Hfuel)
    as (head & l' & Hl' & Hc & Hfind & ->).
  rewrite Hl in Hl'. injection Hl' as <-.
  unfold bind at 1. rewrite (add_walk_spec _ _ _ _ _ _ _ Hc) by auto.
  rewrite Hm in Hfind.
  destruct (find_chain (_entries st) r l) as [i|] eqn:Hf.
  { apply find_chain_Some in Hf as (Hi & _ & [ei He]).
    simpl in Hfind. unfold payload in Hfind. by rewrite He in Hfind. }
  pose proof (inv_free _ _ _ _ _ HI) as Hfree. rewrite Hfl in Hfree.
  apply chain_cons_inv in Hfree as (Hhd & ee & Hee & Hc').
  pose proof (lookup_lt_Some _ _ _ Hee) as Hlt.
  pose proof Inv_NoDup as Hnd. rewrite Hfl in Hnd. simpl in Hnd.
  apply NoDup_cons in Hnd as [[_ Hechs]%not_elem_of_app _].
  destruct (inv_rows _ _ _ _ _ HI) as (row0 & Hrows & Hrow0).
  unfold bind at 1. unfold get_free_list. rewrite Hhd.
  rewrite (bind_load _ _ _ _ _ Hee).
  unfold bind at 1. unfold set_free_list.
  rewrite (bind_store _ _ _ ee) by done. simpl.
  do 3 (erewrite bind_store by (simpl; by apply list_lookup_insert_eq);
        simpl; rewrite list_insert_insert_eq).
  unfold with_next at 1, with_value, with_rule, with_regnum. simpl.
  set (es1 := <[e := mk_entry r rl v None]> (_entries st)).
  assert (He1 : es1 !! e = Some (mk_entry r rl v None))
    by (by apply list_lookup_insert_eq).
  destruct (last l) as [q|] eqn:Hlast.
  - assert (q ≠ e) as Hqe.
    { intros ->. apply Hechs. eapply Inv_chain_elem; [done|].
      by apply last_Some_elem_of. }
    destruct (chain_lookup _ _ _ q Hc) as [eq Heq];
      [by apply last_Some_elem_of|].
    assert (Hq1 : es1 !! q = Some eq)
      by (unfold es1; by rewrite list_lookup_insert_ne).
    rewrite (bind_store _ _ _ eq) by done.
    eexists. split; [done|].
    split; [|by simpl; rewrite list_lookup_insert_ne].
    eapply Inv_inserted; [done|done|done|..]; simpl.
    + exact (inv_pos _ _ _ _ _ HI).
    + by apply chain_head in Hc'.
    + unfold es1. by rewrite !length_insert, (inv_length _ _ _ _ _ HI).
    + by rewrite list_lookup_insert_ne.
    + intros j Hje Hjq. unfold es1.
      rewrite !list_lookup_insert_ne; [done|done|congruence].
    + intros q' Hq'. rewrite Hlast in Hq'. injection Hq' as <-.
      rewrite list_lookup_insert_eq by (by eapply lookup_lt_Some).
      by rewrite Heq.
    + intros row0' Hrows'. by rewrite Hlast.
  - unfold bind at 1. unfold bind at 1. unfold get_table_pos, table_store.
    simpl. rewrite (inv_pos _ _ _ _ _ HI), Hrows. simpl.
    rewrite decide_True.
    2:{ rewrite (Forall2_length _ _ _ Hrow0), (inv_buckets _ _ _ _ _ HI).
        apply bucket_of_lt. }
    eexists. split; [done|]. split; [|done].
    eapply Inv_inserted; [done|done|done|..]; simpl.
    + done.
    + by apply chain_head in Hc'.
    + unfold es1. by rewrite !length_insert, (inv_length _ _ _ _ _ HI).
    + done.
    + intros j Hje _. unfold es1. by rewrite list_lookup_insert_ne.
    + intros ?. by rewrite Hlast.
    + intros row0' Hrows'. rewrite Hlast. congruence.
Qed.

(** One [add_register] call against the abstract map. *)
Lemma add_register_Inv_chain fuel r rl v :
  (∀ l, chs !! bucket_of r = Some l → length l ≤ fuel) →
  ∃ st' fl' chs',
    add_register fuel r rl v st = Ok ((abs_add S m r (rl, v)).1, st')
    ∧ Inv S st' (abs_add S m r (rl, v)).2 fl' chs'
    ∧ ((abs_add S m r (rl, v)).1 = false → st' = st).
Proof.
  intros Hfuel'.
  pose proof (inv_size _ _ _ _ _ HI) as Hsz. unfold abs_add.
  destruct (m !! r) as [x|] eqn:Hm.
  - destruct (add_register_update fuel r rl v x Hfuel' Hm)
      as (i & Hi & Hr & Hadd).
    rewrite decide_True by eauto. simpl.
    exists (updated st i rl v), fl, chs.
    split_and!; [done|by apply Inv_updated|done].
  - assert (fl = [] ∨ ∃ e fl', fl = e :: fl') as [Hfl|(e & fl' & Hfl)]
      by (destruct fl; eauto).
    + rewrite Hfl in Hsz. rewrite decide_False.
      2:{ intros [[? [=]]|?]. simpl in Hsz. lia. }
      exists st, [], chs. simpl.
      split_and!; [by apply add_register_exhausted| |done].
      by rewrite <- Hfl.
    + rewrite Hfl in Hsz.
      rewrite decide_True by (simpl in Hsz; right; lia). simpl.
      destruct (Inv_bucket r) as (head & l & _ & Hl & _).
      destruct (add_register_insert fuel r rl v e fl' l Hfuel' Hm Hfl Hl)
        as (st' & Hadd & HI' & _).
      by exists st', fl', (<[bucket_of r := l ++ [e]]> chs).
Qed.

Lemma add_register_Inv fuel r rl v :
  S ≤ fuel →
  ∃ st' fl' chs',
    add_register fuel r rl v st = Ok ((abs_add S m r (rl, v)).1, st')
    ∧ Inv S st' (abs_add S m r (rl, v)).2 fl' chs'
    ∧ ((abs_add S m r (rl, v)).1 = false → st' = st).
Proof.
  intros Hfuel. apply add_register_Inv_chain.
  intros l Hl. pose proof (Inv_chain_length _ _ Hl). lia.
Qed.

(** A call that returned, with whatever budget, took the abstract step. *)
Lemma add_register_Ok_Inv fuel r rl v b st' :
  add_register fuel r rl v st = Ok (b, st') →
  b = (abs_add S m r (rl, v)).1
  ∧ (b = true → (abs_add S m r (rl, v)).2 = <[r := (rl, v)]> m)
  ∧ (b = false → st' = st)
  ∧ ∃ fl' chs', Inv S st' (abs_add S m r (rl, v)).2 fl' chs'.
Proof.
  intros Hadd.
  apply (add_register_mono _ (fuel `max` S)) in Hadd; [|lia].
  destruct (add_register_Inv (fuel `max` S) r rl v)
    as (st1 & fl1 & chs1 & Hadd1 & HI1 & Hsame); [lia|].
  rewrite Hadd in Hadd1. injection Hadd1 as -> ->.
  split_and!; [done| |done|by eauto].
  unfold abs_add. by case_decide.
Qed.

(** A successful call for an absent register appends a fresh entry. *)
Lemma add_register_appended fuel r rl v st' :
  m !! r = None →
  add_register fuel r rl v st = Ok (true, st') →
  appended st st' r.
Proof.
  intros Hm Hadd.
  apply (add_register_mono _ (fuel `max` S)) in Hadd; [|lia].
  assert (Hfuel : ∀ l, chs !! bucket_of r = Some l
                       → length l ≤ fuel `max` S).
  { intros l Hl. pose proof (Inv_chain_length _ _ Hl). lia. }
  assert (fl = [] ∨ ∃ e fl', fl = e :: fl') as [Hfl|(e & fl' & Hfl)]
    by (destruct fl; eauto).
  { by rewrite (add_register_exhausted _ _ rl v Hfuel Hm Hfl) in Hadd. }
  destruct (Inv_bucket r) as (head & l & Hload & Hl & Hc).
  destruct (add_register_insert _ r rl v e fl' l Hfuel Hm Hfl Hl)
    as (st1 & Hadd1 & HI1 & He).
  rewrite Hadd in Hadd1. injection Hadd1 as <-.
  pose proof (inv_free _ _ _ _ _ HI) as Hfree. rewrite Hfl in Hfree.
  apply chain_head in Hfree. simpl in Hfree.
  destruct (inv_rows _ _ _ _ _ HI1) as (row1 & Hrows1 & Hrow1).
  assert (<[bucket_of r := l ++ [e]]> chs !! bucket_of r = Some (l ++ [e]))
    as Hl1 by (apply list_lookup_insert_eq; by eapply lookup_lt_Some).
  destruct (Forall2_lookup_r _ _ _ _ _ Hrow1 Hl1) as (head1 & Hhead1 & Hc1).
  assert (head1 = if l is [] then Some e else head) as Hh.
  { rewrite (chain_head _ _ _ Hc1), (chain_head _ _ _ Hc). by destruct l. }
  exists head, l, e. split_and!; [done|done|done| | |].
  - unfold table_load. rewrite (inv_pos _ _ _ _ _ HI1), Hrows1. simpl.
    by rewrite Hhead1, Hh.
  - by rewrite <- Hh.
  - unfold regnum_at. by rewrite He.
Qed.

(** The chains of row 0 and the entries they hold. *)
Lemma Inv_row :
  ∃ row0,
    _table_stack st !! _table_pos st = Some row0
    ∧ Forall2 (chain (_entries st)) row0 chs.
Proof.
  destruct (inv_rows _ _ _ _ _ HI) as (row0 & Hrows & Hrow0).
  exists row0. by rewrite (inv_pos _ _ _ _ _ HI), Hrows.
Qed.

Lemma Inv_in_row i : in_row st (_table_pos st) i ↔ i ∈ mjoin chs.
Proof.
  destruct Inv_row as (row0 & Hrow & Hrow0). split.
  - intros (heads & b & head & l & Hheads & Hb & Hc & Hi).
    rewrite Hrow in Hheads. injection Hheads as <-.
    destruct (Forall2_lookup_l _ _ _ _ _ Hrow0 Hb) as (l' & Hl' & Hc').
    rewrite (chain_functional _ _ _ _ Hc Hc') in Hi.
    by eapply Inv_chain_elem.
  - intros (l & Hi & [b Hb]%list_elem_of_lookup)%list_elem_of_join.
    destruct (Forall2_lookup_r _ _ _ _ _ Hrow0 Hb) as (head & Hhead & Hc).
    by exists row0, b, head, l.
Qed.

Lemma Inv_regnums_NoDup : NoDup (regnum_at (_entries st) <$> mjoin chs).
Proof.
  apply NoDup_fmap_2_strong; [exact (inv_uniq _ _ _ _ _ HI)|].
  pose proof Inv_NoDup as Hnd. by apply NoDup_app in Hnd as (_ & _ & ?).
Qed.

Lemma Inv_rows_above row :
  1 ≤ row < TABLE_ROWS →
  _table_stack st !! row = Some (replicate TABLE_BUCKETS None).
Proof.
  intros Hrow. destruct (inv_rows _ _ _ _ _ HI) as (row0 & -> & _).
  destruct row as [|row]; [lia|].
  change (replicate 5 (replicate TABLE_BUCKETS (@None nat)) !! row
          = Some (replicate TABLE_BUCKETS None)).
  apply lookup_replicate_2. unfold TABLE_ROWS in Hrow. lia.
Qed.

End with_inv.

(** *** The constructor *)

Lemma ctor_thread_spec n : ∀ a st,
  a + n ≤ length (_entries st) →
  ∃ es',
    ctor_thread (seq a n) st
    = Ok (tt, mk_stack (_table_stack st) (_table_pos st) (_free_list st) es')
    ∧ length es' = length (_entries st)
    ∧ ∀ i, es' !! i
           = if decide (a ≤ i < a + n)
             then with_next (Some (i + 1)) <$> _entries st !! i
             else _entries st !! i.
Proof.
  induction n as [|n IH]; intros a st Hlen; simpl.
  - exists (_entries st). destruct st. split_and!; [done..|].
    intros i. case_decide; [lia|done].
  - assert (a < length (_entries st)) as Ha by lia.
    destruct (lookup_lt_is_Some_2 _ _ Ha) as [ea Hea].
    rewrite (bind_store _ _ _ _ _ Hea).
    edestruct (IH (Datatypes.S a)) as (es' & -> & Hlen' & Hes'); simpl.
    { rewrite length_insert. lia. }
    simpl in Hlen', Hes'.
    exists es'. rewrite length_insert in Hlen'. split_and!; [done..|].
    intros i. rewrite Hes'. repeat case_decide; try lia.
    + by rewrite list_lookup_insert_ne by lia.
    + assert (i = a) as -> by lia.
      by rewrite list_lookup_insert_eq, Hea by done.
    + by rewrite list_lookup_insert_ne by lia.
Qed.

Lemma ctor_spec S raw :
  length (_entries raw) = S → 0 < S →
  ∃ st,
    dwarf_cfa_stack_ctor S raw = Ok (tt, st)
    ∧ _table_stack st = replicate TABLE_ROWS (replicate TABLE_BUCKETS None)
    ∧ _table_pos st = 0
    ∧ _free_list st = Some 0
    ∧ length (_entries st) = S
    ∧ ∀ i, _entries st !! i = ctor_entry S i <$> _entries raw !! i.
Proof.
  intros Hlen HS. destruct S as [|n]; [lia|].
  destruct (ctor_thread_spec (Datatypes.S n) 0 raw) as (es' & Hthr & Hlen' & Hes');
    [lia|].
  unfold dwarf_cfa_stack_ctor. unfold bind at 1. rewrite Hthr.
  unfold bind at 1. unfold subscript. simpl _entries.
  rewrite Hlen', Hlen. unfold size_t_pred.
  assert ((N.of_nat n <? N.of_nat (Datatypes.S n))%N = true) as ->
    by (apply N.ltb_lt; lia).
  rewrite Nat2N.id.
  assert (n < length es') as Hn by lia.
  destruct (lookup_lt_is_Some_2 _ _ Hn) as [en Hen].
  rewrite (bind_store _ _ _ en) by done.
  eexists. split; [reflexivity|]. simpl.
  split_and!; [done..|by rewrite length_insert; lia|].
  intros i. unfold ctor_entry. destruct (decide (i = n)) as [->|Hne].
  - rewrite list_lookup_insert_eq by done. rewrite Hes' in Hen.
    rewrite decide_True in Hen by lia. rewrite decide_True by lia.
    destruct (_entries raw !! n) as [e0|]; [|done]. by simplify_eq/=.
  - rewrite list_lookup_insert_ne by done. rewrite Hes'.
    case_decide.
    + rewrite decide_False by lia. done.
    + rewrite lookup_ge_None_2 by lia. done.
Qed.

Lemma ctor_zero raw :
  length (_entries raw) = 0 → dwarf_cfa_stack_ctor 0 raw = Fault.
Proof.
  intros Hlen. unfold dwarf_cfa_stack_ctor. simpl. unfold bind, ret, subscript.
  by rewrite Hlen.
Qed.

Lemma chain_seq es n : ∀ a,
  (∀ i, a ≤ i < a + Datatypes.S n →
        ∃ e, es !! i = Some e
             ∧ next e = if decide (i + 1 = a + Datatypes.S n) then None
                        else Some (i + 1)) →
  chain es (Some a) (seq a (Datatypes.S n)).
Proof.
  induction n as [|n IH]; intros a Hes.
  - destruct (Hes a) as (e & He & Hnx); [lia|].
    rewrite decide_True in Hnx by lia. simpl.
    econstructor; [done|]. rewrite Hnx. constructor.
  - destruct (Hes a) as (e & He & Hnx); [lia|].
    rewrite decide_False in Hnx by lia.
    change (seq a (Datatypes.S (Datatypes.S n)))
      with (a :: seq (Datatypes.S a) (Datatypes.S n)).
    econstructor; [done|]. rewrite Hnx.
    replace (a + 1) with (Datatypes.S a) by lia. apply IH.
    intros i Hi. destruct (Hes i) as (ei & Hei & Hnxi); [lia|].
    exists ei. split; [done|]. rewrite Hnxi.
    repeat case_decide; (done || lia).
Qed.

(** The freshly constructed object stands for the empty map, with every
    entry on the free list. *)
Lemma ctor_Inv S raw st :
  length (_entries raw) = S →
  dwarf_cfa_stack_ctor S raw = Ok (tt, st) →
  0 < S ∧ Inv S st ∅ (seq 0 S) (replicate TABLE_BUCKETS []).
Proof.
  intros Hlen Hctor. destruct S as [|n].
  { by rewrite ctor_zero in Hctor. }
  split; [lia|].
  destruct (ctor_spec (Datatypes.S n) raw) as (st' & Hctor' & Htab & Hpos & Hfree & Hlen' & Hes);
    [done|lia|].
  rewrite Hctor in Hctor'. injection Hctor' as <-.
  constructor.
  - done.
  - done.
  - exists (replicate TABLE_BUCKETS None). split; [done|].
    apply Forall2_replicate. constructor.
  - by rewrite length_replicate.
  - rewrite Hfree. apply chain_seq. intros i Hi.
    assert (i < length (_entries raw)) as Hi' by lia.
    destruct (lookup_lt_is_Some_2 _ _ Hi') as [e He].
    exists (ctor_entry (Datatypes.S n) i e). by rewrite Hes, He.
  - change (mjoin (replicate TABLE_BUCKETS [])) with (@nil nat).
    by rewrite (right_id_L [] (++)).
  - intros b l i Hl. apply lookup_replicate_1 in Hl as [-> _].
    by intros ?%elem_of_nil.
  - intros i j Hi. by apply elem_of_nil in Hi.
  - intros r x. rewrite lookup_empty. split; [done|].
    intros (i & Hi & _). by apply elem_of_nil in Hi.
  - by rewrite map_size_empty, length_seq.
Qed.

(** *** Sequences of calls against the abstract map *)

Lemma add_registers_Inv S fuel ops : ∀ st m fl chs,
  Inv S st m fl chs → S ≤ fuel →
  ∃ st' fl' chs',
    add_registers fuel ops st = Ok ((abs_adds S m ops).1, st')
    ∧ Inv S st' (abs_adds S m ops).2 fl' chs'.
Proof.
  induction ops as [|[r [rl v]] ops IH]; intros st m fl chs HI Hfuel.
  - by exists st, fl, chs.
  - destruct (add_register_Inv _ _ _ _ _ HI fuel r rl v Hfuel)
      as (st1 & fl1 & chs1 & Hadd & HI1 & _).
    destruct (IH _ _ _ _ HI1 Hfuel) as (st2 & fl2 & chs2 & Hadds & HI2).
    exists st2, fl2, chs2. simpl.
    destruct (abs_add S m r (rl, v)) as [b m1]. simpl in *.
    destruct (abs_adds S m1 ops) as [bs m2]. simpl in *.
    split; [|done]. rewrite (bind_Ok _ _ _ _ _ Hadd).
    by rewrite (bind_Ok _ _ _ _ _ Hadds).
Qed.

(** Calls for registers that are all present: every one is an in-place
    update, and the free list, the table, the links and the register
    numbers stay as they are. *)
Lemma add_registers_update_Inv S fuel ops : ∀ st m fl chs,
  Inv S st m fl chs → S ≤ fuel →
  (∀ r, r ∈ ops.*1 → is_Some (m !! r)) →
  ∃ st',
    add_registers fuel ops st = Ok (replicate (length ops) true, st')
    ∧ Inv S st' (written m ops) fl chs
    ∧ _free_list st' = _free_list st
    ∧ _table_stack st' = _table_stack st
    ∧ (∀ i, next <$> _entries st' !! i = next <$> _entries st !! i)
    ∧ (∀ i, regnum <$> _entries st' !! i = regnum <$> _entries st !! i).
Proof.
  induction ops as [|[r [rl v]] ops IH]; intros st m fl chs HI Hfuel Hin.
  - by exists st.
  - destruct (Hin r) as [x Hx]; [by left|].
    assert (Hfuel' : ∀ l, chs !! bucket_of r = Some l → length l ≤ fuel).
    { intros l Hl. pose proof (Inv_chain_length _ _ _ _ _ HI _ _ Hl). lia. }
    destruct (add_register_update _ _ _ _ _ HI fuel r rl v x Hfuel' Hx)
      as (i & Hi & Hr & Hadd).
    pose proof (Inv_updated _ _ _ _ _ HI r rl v i Hi Hr) as HI1.
    destruct (IH _ _ _ _ HI1 Hfuel)
      as (st' & Hadds & HI' & Hfree & Htab & Hnext & Hreg).
    { intros r' Hr'. rewrite lookup_insert_is_Some'. right.
      apply Hin. by right. }
    exists st'. simpl. rewrite (bind_Ok _ _ _ _ _ Hadd).
    rewrite (bind_Ok _ _ _ _ _ Hadds).
    split_and!; [done|done|done|done|..].
    + intros j. rewrite Hnext. unfold updated. simpl.
      destruct (decide (i = j)) as [<-|Hne].
      * rewrite list_lookup_alter_eq. by destruct (_entries st !! i).
      * by rewrite list_lookup_alter_ne.
    + intros j. rewrite Hreg. unfold updated. simpl.
      destruct (decide (i = j)) as [<-|Hne].
      * rewrite list_lookup_alter_eq. by destruct (_entries st !! i).
      * by rewrite list_lookup_alter_ne.
Qed.

(** Every reachable state satisfies the representation invariant. *)
Lemma reachable_Inv S st :
  reachable S st → 0 < S ∧ ∃ m fl chs, Inv S st m fl chs.
Proof.
  induction 1 as [raw st Hlen Hctor
                 |st fuel r rl v b st' _ [HS (m & fl & chs & HI)] Hadd
                 |st fuel r res st' _ [HS (m & fl & chs & HI)] Hget].
  - destruct (ctor_Inv _ _ _ Hlen Hctor) as [HS HI]. eauto.
  - split; [done|].
    apply (add_register_mono _ (fuel `max` S)) in Hadd; [|lia].
    destruct (add_register_Inv _ _ _ _ _ HI (fuel `max` S) r rl v)
      as (st1 & fl1 & chs1 & Hadd1 & HI1 & _); [lia|].
    rewrite Hadd in Hadd1. injection Hadd1 as _ <-. eauto.
  - split; [done|].
    apply (get_register_rule_mono _ (fuel `max` S)) in Hget; [|lia].
    rewrite (get_register_rule_Inv _ _ _ _ _ HI) in Hget.
    + injection Hget as _ <-. eauto.
    + intros l Hl. pose proof (Inv_chain_length _ _ _ _ _ HI _ _ Hl). lia.
Qed.

(** *** Runs of the abstract map *)

Implicit Types (ops : list (N * (dwarf_cfa_reg_rule_t * T))).
Implicit Types (m : gmap N (dwarf_cfa_reg_rule_t * T)).

Lemma written_lookup ops : ∀ m r,
  written m ops !! r
  = match last_write r ops with Some y => Some y | None => m !! r end.
Proof.
  induction ops as [|[r' x] ops IH]; intros m r; simpl; [done|].
  unfold written in *. simpl. rewrite IH.
  destruct (last_write r ops); [done|].
  rewrite lookup_insert. by destruct (decide (r' = r)).
Qed.

Lemma written_dom ops : ∀ m,
  dom (written m ops) = dom m ∪ list_to_set ops.*1.
Proof.
  induction ops as [|[r x] ops IH]; intros m; simpl.
  - set_solver.
  - unfold written in *. simpl. rewrite IH, dom_insert_L. set_solver.
Qed.

Lemma last_write_is_Some r ops : r ∈ ops.*1 → is_Some (last_write r ops).
Proof.
  induction ops as [|[r' x] ops IH]; simpl.
  - by intros ?%elem_of_nil.
  - intros [<-|Hr]%elem_of_cons.
    + destruct (last_write r ops); [by eauto|]. rewrite decide_True by done.
      by eauto.
    + destruct (IH Hr) as [y ->]. by eauto.
Qed.

(** While the registers fit the pool, every call succeeds. *)
Lemma abs_adds_fits S ops : ∀ m,
  size (dom m ∪ list_to_set ops.*1) ≤ S →
  abs_adds S m ops = (replicate (length ops) true, written m ops).
Proof.
  induction ops as [|[r x] ops IH]; intros m Hsz; simpl; [done|].
  unfold abs_add. rewrite decide_True.
  - rewrite IH; [done|]. rewrite dom_insert_L.
    replace ({[r]} ∪ dom m ∪ list_to_set ops.*1)
      with (dom m ∪ list_to_set ((r, x) :: ops).*1) by set_solver.
    done.
  - destruct (m !! r) as [y|] eqn:Hm; [by eauto|]. right.
    apply not_elem_of_dom in Hm.
    assert (size ({[r]} ∪ dom m) ≤ S) as Hle.
    { etrans; [|exact Hsz]. apply subseteq_size. set_solver. }
    rewrite size_union, size_singleton, size_dom in Hle by set_solver. lia.
Qed.

End Proofs.

(** ** Properties of the constructor and the two member functions *)

Section Properties.
Context {T : Type}.
Implicit Types (st raw : dwarf_cfa_stack T).
Implicit Types (ops : list (N * (dwarf_cfa_reg_rule_t * T))).

(** C1: on a freshly constructed object of capacity [S], every sequence of
    [add_register] calls with at most [S] distinct register numbers
    succeeds call by call, and afterwards [get_register_rule] of any
    register of the sequence returns the rule and value of the most recent
    call for that register. *)
Theorem add_register_then_get_register_rule S raw st0 fuel ops :
  length (_entries raw) = S →
  dwarf_cfa_stack_ctor S raw = Ok (tt, st0) →
  S ≤ fuel →
  distinct_regnums ops ≤ S →
  ∃ st,
    add_registers fuel ops st0 = Ok (replicate (length ops) true, st)
    ∧ ∀ r, r ∈ ops.*1 →
        ∃ x, last_write r ops = Some x
             ∧ get_register_rule fuel r st = Ok (Some x, st).
Proof.
  intros Hlen Hctor Hfuel Hdist.
  destruct (ctor_Inv _ _ _ Hlen Hctor) as [_ HI].
  destruct (add_registers_Inv S fuel ops _ _ _ _ HI Hfuel)
    as (st & fl & chs & Hadds & HI').
  rewrite abs_adds_fits in Hadds, HI'
    by (by rewrite dom_empty_L, (left_id_L ∅ (∪))).
  exists st. split; [done|]. intros r Hr.
  destruct (last_write_is_Some r ops Hr) as [x Hx]. exists x. split; [done|].
  rewrite (get_register_rule_Inv _ _ _ _ _ HI').
  - simpl. by rewrite written_lookup, Hx.
  - intros l Hl. pose proof (Inv_chain_length _ _ _ _ _ HI' _ _ Hl). lia.
Qed.

(** C2 (amended): for every capacity [S >= 1] construction succeeds
    without leaving the [S]-element entry array: afterwards entry [i]
    links to entry [i + 1], the last entry links to [NULL], the payload
    fields are as they were, the free list starts at entry 0, all 6 x 15
    bucket heads are null and the current-row index is 0. *)
Theorem ctor_succeeds_for_positive_capacity S raw :
  length (_entries raw) = S → 0 < S →
  ∃ st,
    dwarf_cfa_stack_ctor S raw = Ok (tt, st)
    ∧ _table_stack st = replicate TABLE_ROWS (replicate TABLE_BUCKETS None)
    ∧ _table_pos st = 0
    ∧ _free_list st = Some 0
    ∧ length (_entries st) = S
    ∧ ∀ i, _entries st !! i = ctor_entry S i <$> _entries raw !! i.
Proof. apply ctor_spec. Qed.

(** C6: in every reachable state the free list and the 15 bucket chains
    of the active row are well-formed [NULL]-terminated chains which
    together hold each of the [S] entry indices exactly once, so their
    lengths add up to [S]. *)
Theorem entries_partitioned S st :
  reachable S st →
  ∃ fl heads chs,
    chain (_entries st) (_free_list st) fl
    ∧ _table_stack st !! _table_pos st = Some heads
    ∧ Forall2 (chain (_entries st)) heads chs
    ∧ length (_entries st) = S
    ∧ fl ++ mjoin chs ≡ₚ seq 0 S
    ∧ length fl + length (mjoin chs) = S.
Proof.
  intros (_ & m & fl & chs & HI)%reachable_Inv.
  destruct (Inv_row _ _ _ _ _ HI) as (row0 & Hrow & Hrow0).
  exists fl, row0, chs.
  split_and!; [apply HI|done|done|apply HI|apply HI|].
  by rewrite <- length_app, (inv_perm _ _ _ _ _ HI), length_seq.
Qed.

(** C7: in every reachable state the entries linked into the bucket chains
    of the active row carry pairwise distinct register numbers. *)
Theorem regnums_unique_in_row S st :
  reachable S st →
  ∃ heads chs,
    _table_stack st !! _table_pos st = Some heads
    ∧ Forall2 (chain (_entries st)) heads chs
    ∧ NoDup (regnum_at (_entries st) <$> mjoin chs)
    ∧ ∀ i j, in_row st (_table_pos st) i → in_row st (_table_pos st) j →
             regnum_at (_entries st) i = regnum_at (_entries st) j → i = j.
Proof.
  intros (_ & m & fl & chs & HI)%reachable_Inv.
  destruct (Inv_row _ _ _ _ _ HI) as (row0 & Hrow & Hrow0).
  exists row0, chs.
  split_and!; [done|done|by eapply Inv_regnums_NoDup|].
  intros i j Hi%(Inv_in_row _ _ _ _ _ HI) Hj%(Inv_in_row _ _ _ _ _ HI).
  by apply (inv_uniq _ _ _ _ _ HI).
Qed.

(** C8: [get_register_rule] never changes the object, whatever the state;
    in a reachable state it returns, and it reports not-found exactly when
    no entry linked into the active row carries the register number. *)
Theorem get_register_rule_is_a_query st fuel r :
  (∀ res st', get_register_rule fuel r st = Ok (res, st') → st' = st)
  ∧ (∀ S, reachable S st → S ≤ fuel →
       ∃ res,
         get_register_rule fuel r st = Ok (res, st)
         ∧ (res = None ↔
            ¬ ∃ i, in_row st (_table_pos st) i
                   ∧ regnum_at (_entries st) i = r)).
Proof.
  split; [intros res st'; apply get_register_rule_pure|].
  intros S (_ & m & fl & chs & HI)%reachable_Inv Hfuel.
  exists (m !! r). split.
  - apply (get_register_rule_Inv _ _ _ _ _ HI).
    intros l Hl. pose proof (Inv_chain_length _ _ _ _ _ HI _ _ Hl). lia.
  - split.
    + intros Hm (i & Hi%(Inv_in_row _ _ _ _ _ HI) & Hr).
      by eapply (Inv_lookup_None _ _ _ _ _ HI).
    + intros Hno. destruct (m !! r) as [x|] eqn:Hm; [|done].
      exfalso. apply Hno.
      apply (inv_abs _ _ _ _ _ HI) in Hm as (i & Hi & Hr & _).
      exists i. by rewrite (Inv_in_row _ _ _ _ _ HI).
Qed.

(** C9: in every reachable state the bucket chain an operation walks is
    finite and free of repetitions, hence no longer than [S]; a budget of
    as many loop iterations as the chain has entries, and so a budget of
    [S], lets both [add_register] and [get_register_rule] return. *)
Theorem operations_terminate S st r rl v :
  reachable S st →
  ∃ head l,
    table_load (_table_pos st) (bucket_of r) st = Ok (head, st)
    ∧ chain (_entries st) head l
    ∧ NoDup l
    ∧ length l ≤ S
    ∧ ∀ fuel, length l ≤ fuel →
        (∃ b st', add_register fuel r rl v st = Ok (b, st'))
        ∧ (∃ res, get_register_rule fuel r st = Ok (res, st)).
Proof.
  intros (_ & m & fl & chs & HI)%reachable_Inv.
  destruct (Inv_bucket _ _ _ _ _ HI r) as (head & l & Hload & Hl & Hc).
  exists head, l.
  split_and!; [done|done|by eapply Inv_chain_NoDup|by eapply Inv_chain_length|].
  intros fuel Hfuel.
  assert (Hfuel' : ∀ l', chs !! bucket_of r = Some l' → length l' ≤ fuel).
  { intros l' Hl'. rewrite Hl in Hl'. by injection Hl' as <-. }
  split.
  - destruct (add_register_Inv_chain _ _ _ _ _ HI fuel r rl v Hfuel')
      as (st' & _ & _ & Hadd & _).
    eauto.
  - exists (m !! r). by apply (get_register_rule_Inv _ _ _ _ _ HI).
Qed.

(** C10: in every reachable state the current-row index is 0, the table
    has its 6 rows, and every bucket head of rows 1 to 5 is null. *)
Theorem only_row_zero_is_used S st :
  reachable S st →
  _table_pos st = 0
  ∧ length (_table_stack st) = TABLE_ROWS
  ∧ ∀ row, 1 ≤ row < TABLE_ROWS →
           _table_stack st !! row = Some (replicate TABLE_BUCKETS None).
Proof.
  intros (_ & m & fl & chs & HI)%reachable_Inv.
  split_and!; [apply HI| |by eapply Inv_rows_above].
  by destruct (inv_rows _ _ _ _ _ HI) as (row0 & -> & _).
Qed.

(** C3: in a reachable state, [add_register] of a register that has an
    entry in the active row returns success and yields the same object
    with only that entry's rule and value overwritten (table, current-row
    index, free list, the entry's register number and link, and all other
    entries are as before).  After [k <= S] distinct registers were
    inserted into a fresh object, [S - k] entries are on the free list,
    and any further calls for registers among them all succeed and leave
    the free list, the table, every link and every register number as
    they were, each register reading back the values last written. *)
Theorem update_in_place_keeps_free_list S fuel :
  S ≤ fuel →
  (∀ st r rl v x,
     reachable S st →
     get_register_rule fuel r st = Ok (Some x, st) →
     ∃ i e,
       in_row st (_table_pos st) i
       ∧ _entries st !! i = Some e
       ∧ regnum e = r
       ∧ (rule e, value e) = x
       ∧ add_register fuel r rl v st
         = Ok (true,
               mk_stack (_table_stack st) (_table_pos st) (_free_list st)
                 (<[i := mk_entry r rl v (next e)]> (_entries st))))
  ∧ (∀ raw st0 ops1 ops2,
       length (_entries raw) = S →
       dwarf_cfa_stack_ctor S raw = Ok (tt, st0) →
       NoDup ops1.*1 → length ops1 ≤ S →
       (∀ r, r ∈ ops2.*1 → r ∈ ops1.*1) →
       ∃ st1 st2 fl,
         add_registers fuel ops1 st0 = Ok (replicate (length ops1) true, st1)
         ∧ chain (_entries st1) (_free_list st1) fl
         ∧ length fl = S - length ops1
         ∧ add_registers fuel ops2 st1
           = Ok (replicate (length ops2) true, st2)
         ∧ _free_list st2 = _free_list st1
         ∧ chain (_entries st2) (_free_list st2) fl
         ∧ _table_stack st2 = _table_stack st1
         ∧ (∀ i, next <$> _entries st2 !! i = next <$> _entries st1 !! i)
         ∧ (∀ i, regnum <$> _entries st2 !! i = regnum <$> _entries st1 !! i)
         ∧ ∀ r, r ∈ ops1.*1 →
             ∃ x, last_write r (ops1 ++ ops2) = Some x
                  ∧ get_register_rule fuel r st2 = Ok (Some x, st2)).
Proof.
  intros Hfuel. split.
  { intros st r rl v x (_ & m & fl & chs & HI)%reachable_Inv Hget.
    assert (Hfuel' : ∀ l, chs !! bucket_of r = Some l → length l ≤ fuel).
    { intros l Hl. pose proof (Inv_chain_length _ _ _ _ _ HI _ _ Hl). lia. }
    rewrite (get_register_rule_Inv _ _ _ _ _ HI _ _ Hfuel') in Hget.
    injection Hget as Hm.
    destruct (add_register_update _ _ _ _ _ HI fuel r rl v x Hfuel' Hm)
      as (i & Hi & Hr & Hadd).
    apply (inv_abs _ _ _ _ _ HI) in Hm as (j & Hj & Hrj & Hx).
    assert (j = i) as -> by (apply (inv_uniq _ _ _ _ _ HI); congruence).
    unfold payload in Hx. unfold regnum_at in Hr.
    destruct (_entries st !! i) as [e|] eqn:He; [|done].
    simpl in Hx, Hr. injection Hx as Hx.
    exists i, e.
    split_and!; [by apply (Inv_in_row _ _ _ _ _ HI)|done..|].
    rewrite Hadd. unfold updated. do 3 f_equal.
    rewrite <- Hr. symmetry.
    apply (insert_as_alter _ _ e
             (λ e0, mk_entry (regnum e0) rl v (next e0)) He). }
  intros raw st0 ops1 ops2 Hlen Hctor Hnd Hk Hsub.
  destruct (ctor_Inv _ _ _ Hlen Hctor) as [_ HI].
  assert (Hsize : size (list_to_set ops1.*1 : gset N) = length ops1).
  { by rewrite size_list_to_set, length_fmap. }
  destruct (add_registers_Inv S fuel ops1 _ _ _ _ HI Hfuel)
    as (st1 & fl & chs & Hadds1 & HI1).
  rewrite abs_adds_fits in Hadds1, HI1
    by (rewrite dom_empty_L, (left_id_L ∅ (∪)); lia).
  simpl in Hadds1, HI1.
  assert (Hdom : dom (written (∅ : gmap N (dwarf_cfa_reg_rule_t * T)) ops1)
                 = list_to_set ops1.*1).
  { by rewrite written_dom, dom_empty_L, (left_id_L ∅ (∪)). }
  destruct (add_registers_update_Inv S fuel ops2 _ _ _ _ HI1 Hfuel)
    as (st2 & Hadds2 & HI2 & Hfree & Htab & Hnext & Hreg).
  { intros r Hr%Hsub. apply elem_of_dom. rewrite Hdom.
    by apply elem_of_list_to_set. }
  exists st1, st2, fl.
  split_and!; [done|exact (inv_free _ _ _ _ _ HI1)| |done|done| |done..|].
  - pose proof (inv_size _ _ _ _ _ HI1) as Hsz.
    rewrite <- size_dom, Hdom, Hsize in Hsz. lia.
  - exact (inv_free _ _ _ _ _ HI2).
  - intros r Hr.
    destruct (last_write_is_Some r (ops1 ++ ops2)) as [x Hx].
    { rewrite fmap_app. apply elem_of_app. by left. }
    exists x. split; [done|].
    rewrite (get_register_rule_Inv _ _ _ _ _ HI2).
    + unfold written. rewrite <- foldl_app.
      fold (written (∅ : gmap N (dwarf_cfa_reg_rule_t * T)) (ops1 ++ ops2)).
      by rewrite written_lookup, Hx.
    + intros l Hl. pose proof (Inv_chain_length _ _ _ _ _ HI2 _ _ Hl). lia.
Qed.

(** C4: once a fresh object of capacity [S] holds [S] distinct registers,
    all written by successful calls, [add_register] of any further
    register returns failure and leaves the object exactly as it was;
    every register written before still reads back its last values. *)
Theorem add_register_fails_when_pool_exhausted S raw st0 fuel ops r rl v :
  length (_entries raw) = S →
  dwarf_cfa_stack_ctor S raw = Ok (tt, st0) →
  S ≤ fuel →
  distinct_regnums ops = S →
  r ∉ ops.*1 →
  ∃ st,
    add_registers fuel ops st0 = Ok (replicate (length ops) true, st)
    ∧ add_register fuel r rl v st = Ok (false, st)
    ∧ ∀ r', r' ∈ ops.*1 →
        ∃ x, last_write r' ops = Some x
             ∧ get_register_rule fuel r' st = Ok (Some x, st).
Proof.
  intros Hlen Hctor Hfuel Hdist Hr.
  destruct (ctor_Inv _ _ _ Hlen Hctor) as [_ HI].
  destruct (add_registers_Inv S fuel ops _ _ _ _ HI Hfuel)
    as (st & fl & chs & Hadds & HI').
  unfold distinct_regnums in Hdist.
  rewrite abs_adds_fits in Hadds, HI'
    by (rewrite dom_empty_L, (left_id_L ∅ (∪)); lia).
  simpl in Hadds, HI'.
  assert (Hdom : dom (written (∅ : gmap N (dwarf_cfa_reg_rule_t * T)) ops)
                 = list_to_set ops.*1).
  { by rewrite written_dom, dom_empty_L, (left_id_L ∅ (∪)). }
  exists st. split_and!; [done| |].
  - destruct (add_register_Inv _ _ _ _ _ HI' fuel r rl v Hfuel)
      as (st' & _ & _ & Hadd & _ & Hsame).
    assert (¬ (is_Some (written ∅ ops !! r) ∨ size (written ∅ ops) < S))
      as Hfull.
    { rewrite <- size_dom, Hdom, Hdist.
      intros [Hin%elem_of_dom|?]; [|lia].
      rewrite Hdom in Hin. by apply elem_of_list_to_set in Hin. }
    unfold abs_add in Hadd, Hsame.
    rewrite (decide_False _ _ Hfull) in Hadd, Hsame.
    simpl in Hadd, Hsame. by rewrite (Hsame eq_refl) in Hadd.
  - intros r' Hr'. destruct (last_write_is_Some r' ops Hr') as [x Hx].
    exists x. split; [done|].
    rewrite (get_register_rule_Inv _ _ _ _ _ HI').
    + by rewrite written_lookup, Hx.
    + intros l Hl. pose proof (Inv_chain_length _ _ _ _ _ HI' _ _ Hl). lia.
Qed.

(** C5: two successful [add_register] calls for distinct registers of the
    same bucket leave both readable, each with its own rule and value; a
    call for a register that was absent links the entry taken from the
    free list at the end of the bucket chain, as the bucket head when the
    chain was empty, all earlier entries of the chain staying in place. *)
Theorem colliding_registers_are_independent
    S st fuel r1 rl1 v1 r2 rl2 v2 st1 st2 :
  reachable S st → S ≤ fuel →
  r1 ≠ r2 → bucket_of r1 = bucket_of r2 →
  add_register fuel r1 rl1 v1 st = Ok (true, st1) →
  add_register fuel r2 rl2 v2 st1 = Ok (true, st2) →
  get_register_rule fuel r1 st2 = Ok (Some (rl1, v1), st2)
  ∧ get_register_rule fuel r2 st2 = Ok (Some (rl2, v2), st2)
  ∧ (get_register_rule fuel r1 st = Ok (None, st) → appended st st1 r1)
  ∧ (get_register_rule fuel r2 st1 = Ok (None, st1) → appended st1 st2 r2).
Proof.
  intros (_ & m & fl & chs & HI)%reachable_Inv Hfuel Hne Hb Hadd1 Hadd2.
  destruct (add_register_Ok_Inv _ _ _ _ _ HI _ _ _ _ _ _ Hadd1)
    as (_ & Hm1 & _ & fl1 & chs1 & HI1).
  rewrite (Hm1 eq_refl) in HI1.
  destruct (add_register_Ok_Inv _ _ _ _ _ HI1 _ _ _ _ _ _ Hadd2)
    as (_ & Hm2 & _ & fl2 & chs2 & HI2).
  rewrite (Hm2 eq_refl) in HI2.
  assert (Hget : ∀ S' st' m' fl' chs' r,
            Inv S' st' m' fl' chs' → S' ≤ fuel →
            get_register_rule fuel r st' = Ok (m' !! r, st')).
  { intros S' st' m' fl' chs' r HI0 Hfuel0.
    apply (get_register_rule_Inv _ _ _ _ _ HI0). intros l Hl.
    pose proof (Inv_chain_length _ _ _ _ _ HI0 _ _ Hl). lia. }
  split_and!.
  - rewrite (Hget _ _ _ _ _ r1 HI2 Hfuel).
    by rewrite lookup_insert_ne, lookup_insert_eq.
  - rewrite (Hget _ _ _ _ _ r2 HI2 Hfuel). by rewrite lookup_insert_eq.
  - rewrite (Hget _ _ _ _ _ r1 HI Hfuel). intros [= Hm].
    by eapply (add_register_appended _ _ _ _ _ HI).
  - rewrite (Hget _ _ _ _ _ r2 HI1 Hfuel). intros [= Hm].
    by eapply (add_register_appended _ _ _ _ _ HI1).
Qed.

End Properties.

(** ** The code on the example objects *)

Lemma ctor_raw2 : dwarf_cfa_stack_ctor 2 raw2 = Ok (tt, fresh2).
Proof. reflexivity. Qed.

(** Capacity 2: registers 5 and 20 collide in bucket 5, a third register
    finds the pool exhausted. *)
Example scenario_capacity_two :
  add_register 2 5 DWARF_CFA_REG_RULE_OFFSET 8%Z fresh2 = Ok (true, one2)
  ∧ add_register 2 20 DWARF_CFA_REG_RULE_OFFSET 16%Z one2 = Ok (true, two2)
  ∧ get_register_rule 2 5 two2
    = Ok (Some (DWARF_CFA_REG_RULE_OFFSET, 8%Z), two2)
  ∧ get_register_rule 2 20 two2
    = Ok (Some (DWARF_CFA_REG_RULE_OFFSET, 16%Z), two2)
  ∧ add_register 2 7 DWARF_CFA_REG_RULE_OFFSET 4%Z two2 = Ok (false, two2)
  ∧ get_register_rule 2 7 two2 = Ok (None, two2).
Proof. split_and!; reflexivity. Qed.

(** Capacity 1: a second write of register 3 updates in place, register 9
    finds the pool exhausted. *)
Example scenario_capacity_one :
  dwarf_cfa_stack_ctor 1 raw1 = Ok (tt, fresh1)
  ∧ add_register 1 3 DWARF_CFA_REG_RULE_OFFSET 100%Z fresh1
    = Ok (true, stored1 100)
  ∧ add_register 1 3 DWARF_CFA_REG_RULE_OFFSET 200%Z (stored1 100)
    = Ok (true, stored1 200)
  ∧ get_register_rule 1 3 (stored1 200)
    = Ok (Some (DWARF_CFA_REG_RULE_OFFSET, 200%Z), stored1 200)
  ∧ add_register 1 9 DWARF_CFA_REG_RULE_OFFSET 1%Z (stored1 200)
    = Ok (false, stored1 200).
Proof. split_and!; reflexivity. Qed.

(** With too small a budget the walk is cut off, not answered. *)
Example budget_cuts_off :
  get_register_rule 1 20 two2 = OutOfFuel
  ∧ get_register_rule 2 20 two2
    = Ok (Some (DWARF_CFA_REG_RULE_OFFSET, 16%Z), two2).
Proof. split; reflexivity. Qed.

Lemma add_registers_fresh2 :
  add_registers 2 ops2 fresh2 = Ok ([true; true; true], full2).
Proof. reflexivity. Qed.

Lemma reachable_add_registers {T} S fuel
    (ops : list (N * (dwarf_cfa_reg_rule_t * T))) : ∀ st bs st',
  reachable S st → add_registers fuel ops st = Ok (bs, st') →
  reachable S st'.
Proof.
  induction ops as [|[r [rl v]] ops IH]; intros st bs st' Hst; simpl.
  - by intros [= _ <-].
  - intros (b & st1 & Hadd & Hk)%bind_Ok_inv.
    apply bind_Ok_inv in Hk as (bs' & st2 & Hadds & Hk).
    injection Hk as _ <-.
    eapply IH; [|done]. by eapply reach_add.
Qed.

Lemma reachable_fresh2 : reachable 2 fresh2.
Proof. by apply (reach_ctor 2 raw2). Qed.

Lemma reachable_full2 : reachable 2 full2.
Proof.
  eapply reachable_add_registers;
    [exact reachable_fresh2|exact add_registers_fresh2].
Qed.

Lemma add_register_then_get_register_rule_witness :
  ∃ st,
    add_registers 2 ops2 fresh2 = Ok (replicate (length ops2) true, st)
    ∧ ∀ r, r ∈ ops2.*1 →
        ∃ x, last_write r ops2 = Some x
             ∧ get_register_rule 2 r st = Ok (Some x, st).
Proof.
  apply (add_register_then_get_register_rule 2 raw2 fresh2 2 ops2).
  - reflexivity.
  - reflexivity.
  - lia.
  - vm_compute. lia.
Defined.

Lemma ctor_succeeds_for_positive_capacity_witness :
  ∃ st,
    dwarf_cfa_stack_ctor 2 raw2 = Ok (tt, st)
    ∧ _table_stack st = replicate TABLE_ROWS (replicate TABLE_BUCKETS None)
    ∧ _table_pos st = 0
    ∧ _free_list st = Some 0
    ∧ length (_entries st) = 2
    ∧ ∀ i, _entries st !! i = ctor_entry 2 i <$> _entries raw2 !! i.
Proof.
  apply (ctor_succeeds_for_positive_capacity 2 raw2); [reflexivity|lia].
Defined.

(** C2, as stated, fails at capacity 0: the store through
    [_entries[S-1]] lies outside the empty entry array. *)
Lemma ctor_faults_at_capacity_zero :
  length (_entries raw0) = 0
  ∧ dwarf_cfa_stack_ctor 0 raw0 = Fault
  ∧ ¬ ∃ st, dwarf_cfa_stack_ctor 0 raw0 = Ok (tt, st).
Proof. split_and!; [reflexivity..|]. by intros [st [=]]. Qed.

Lemma entries_partitioned_witness :
  ∃ fl heads chs,
    chain (_entries full2) (_free_list full2) fl
    ∧ _table_stack full2 !! _table_pos full2 = Some heads
    ∧ Forall2 (chain (_entries full2)) heads chs
    ∧ length (_entries full2) = 2
    ∧ fl ++ mjoin chs ≡ₚ seq 0 2
    ∧ length fl + length (mjoin chs) = 2.
Proof. apply (entries_partitioned 2 full2). exact reachable_full2. Defined.

Lemma regnums_unique_in_row_witness :
  ∃ heads chs,
    _table_stack full2 !! _table_pos full2 = Some heads
    ∧ Forall2 (chain (_entries full2)) heads chs
    ∧ NoDup (regnum_at (_entries full2) <$> mjoin chs)
    ∧ ∀ i j, in_row full2 (_table_pos full2) i →
             in_row full2 (_table_pos full2) j →
             regnum_at (_entries full2) i = regnum_at (_entries full2) j →
             i = j.
Proof. apply (regnums_unique_in_row 2 full2). exact reachable_full2. Defined.

Lemma get_register_rule_is_a_query_witness :
  (∀ res st', get_register_rule 2 7 full2 = Ok (res, st') → st' = full2)
  ∧ ∃ res,
      get_register_rule 2 7 full2 = Ok (res, full2)
      ∧ (res = None ↔
         ¬ ∃ i, in_row full2 (_table_pos full2) i
                ∧ regnum_at (_entries full2) i = 7%N).
Proof.
  destruct (get_register_rule_is_a_query full2 2 7) as [Hpure Hfound].
  split; [exact Hpure|].
  apply (Hfound 2); [exact reachable_full2|lia].
Defined.

Lemma operations_terminate_witness :
  ∃ head l,
    table_load (_table_pos full2) (bucket_of 35) full2 = Ok (head, full2)
    ∧ chain (_entries full2) head l
    ∧ NoDup l
    ∧ length l ≤ 2
    ∧ ∀ fuel, length l ≤ fuel →
        (∃ b st',
           add_register fuel 35 DWARF_CFA_REG_RULE_OFFSET 0%Z full2
           = Ok (b, st'))
        ∧ (∃ res, get_register_rule fuel 35 full2 = Ok (res, full2)).
Proof.
  apply (operations_terminate 2 full2 35 DWARF_CFA_REG_RULE_OFFSET 0%Z).
  exact reachable_full2.
Defined.

Lemma only_row_zero_is_used_witness :
  _table_pos full2 = 0
  ∧ length (_table_stack full2) = TABLE_ROWS
  ∧ ∀ row, 1 ≤ row < TABLE_ROWS →
           _table_stack full2 !! row = Some (replicate TABLE_BUCKETS None).
Proof. apply (only_row_zero_is_used 2 full2). exact reachable_full2. Defined.

Lemma reachable_one2 : reachable 2 one2.
Proof.
  apply (reach_add 2 fresh2 2 5 DWARF_CFA_REG_RULE_OFFSET 8%Z true one2);
    [exact reachable_fresh2|reflexivity].
Qed.

Lemma update_in_place_keeps_free_list_witness :
  (∃ i e,
     in_row one2 (_table_pos one2) i
     ∧ _entries one2 !! i = Some e
     ∧ regnum e = 5%N
     ∧ (rule e, value e) = (DWARF_CFA_REG_RULE_OFFSET, 8%Z)
     ∧ add_register 2 5 DWARF_CFA_REG_RULE_OFFSET 24%Z one2
       = Ok (true,
             mk_stack (_table_stack one2) (_table_pos one2) (_free_list one2)
               (<[i := mk_entry 5 DWARF_CFA_REG_RULE_OFFSET 24%Z (next e)]>
                  (_entries one2))))
  ∧ ∃ st1 st2 fl,
      add_registers 2 (take 1 ops2) fresh2
      = Ok (replicate (length (take 1 ops2)) true, st1)
      ∧ chain (_entries st1) (_free_list st1) fl
      ∧ length fl = 2 - length (take 1 ops2)
      ∧ add_registers 2 (drop 2 ops2) st1
        = Ok (replicate (length (drop 2 ops2)) true, st2)
      ∧ _free_list st2 = _free_list st1
      ∧ chain (_entries st2) (_free_list st2) fl
      ∧ _table_stack st2 = _table_stack st1
      ∧ (∀ i, next <$> _entries st2 !! i = next <$> _entries st1 !! i)
      ∧ (∀ i, regnum <$> _entries st2 !! i = regnum <$> _entries st1 !! i)
      ∧ ∀ r, r ∈ (take 1 ops2).*1 →
          ∃ x, last_write r (take 1 ops2 ++ drop 2 ops2) = Some x
               ∧ get_register_rule 2 r st2 = Ok (Some x, st2).
Proof.
  destruct (update_in_place_keeps_free_list (T := Z) 2 2) as [Hstep Hruns];
    [lia|].
  split.
  - apply (Hstep one2 5%N DWARF_CFA_REG_RULE_OFFSET 24%Z
             (DWARF_CFA_REG_RULE_OFFSET, 8%Z)).
    + exact reachable_one2.
    + reflexivity.
  - apply (Hruns raw2 fresh2 (take 1 ops2) (drop 2 ops2)).
    + reflexivity.
    + reflexivity.
    + simpl. apply NoDup_singleton.
    + simpl. lia.
    + simpl. intros r Hr. exact Hr.
Defined.

Lemma add_register_fails_when_pool_exhausted_witness :
  ∃ st,
    add_registers 2 ops2 fresh2 = Ok (replicate (length ops2) true, st)
    ∧ add_register 2 7 DWARF_CFA_REG_RULE_OFFSET 4%Z st = Ok (false, st)
    ∧ ∀ r', r' ∈ ops2.*1 →
        ∃ x, last_write r' ops2 = Some x
             ∧ get_register_rule 2 r' st = Ok (Some x, st).
Proof.
  apply (add_register_fails_when_pool_exhausted 2 raw2 fresh2 2 ops2 7
           DWARF_CFA_REG_RULE_OFFSET 4%Z).
  - reflexivity.
  - reflexivity.
  - lia.
  - vm_compute. reflexivity.
  - simpl. rewrite !elem_of_cons, elem_of_nil. intros [|[|[|]]]; done.
Defined.

Lemma colliding_registers_are_independent_witness :
  get_register_rule 2 5 two2 = Ok (Some (DWARF_CFA_REG_RULE_OFFSET, 8%Z), two2)
  ∧ get_register_rule 2 20 two2
    = Ok (Some (DWARF_CFA_REG_RULE_OFFSET, 16%Z), two2)
  ∧ (get_register_rule 2 5 fresh2 = Ok (None, fresh2)
     → appended fresh2 one2 5)
  ∧ (get_register_rule 2 20 one2 = Ok (None, one2) → appended one2 two2 20).
Proof.
  apply (colliding_registers_are_independent 2 fresh2 2
           5 DWARF_CFA_REG_RULE_OFFSET 8%Z
           20 DWARF_CFA_REG_RULE_OFFSET 16%Z one2 two2).
  - exact reachable_fresh2.
  - lia.
  - discriminate.
  - reflexivity.
  - reflexivity.
  - reflexivity.
Defined.

(** ** Further properties of the three member functions *)

Section More.
Context {T : Type}.
Implicit Types (st raw : dwarf_cfa_stack T).
Implicit Types (ops : list (N * (dwarf_cfa_reg_rule_t * T))).
Implicit Types (m : gmap N (dwarf_cfa_reg_rule_t * T)).

(** In a state that satisfies the invariant a lookup answers with the
    binding of the abstract map. *)
Lemma Inv_get S st m fl chs fuel r :
  Inv S st m fl chs → S ≤ fuel →
  get_register_rule fuel r st = Ok (m !! r, st).
Proof.
  intros HI Hfuel. apply (get_register_rule_Inv _ _ _ _ _ HI).
  intros l Hl. pose proof (Inv_chain_length _ _ _ _ _ HI _ _ Hl). lia.
Qed.

(** The free list is empty exactly when the map is full. *)
Lemma Inv_free_list_None S st m fl chs :
  Inv S st m fl chs → (_free_list st = None ↔ size m = S).
Proof.
  intros HI. pose proof (inv_size _ _ _ _ _ HI) as Hsz.
  pose proof (inv_free _ _ _ _ _ HI) as Hc. split.
  - intros Hnone. rewrite Hnone in Hc.
    rewrite (chain_functional _ _ _ _ Hc (chain_null _)) in Hsz.
    simpl in Hsz. lia.
  - intros Hfull. destruct fl; [by apply chain_head in Hc|].
    simpl in Hsz. lia.
Qed.

Lemma abs_add_false S m r x :
  size m ≤ S →
  ((abs_add S m r x).1 = false ↔ m !! r = None ∧ size m = S).
Proof.
  intros Hle. unfold abs_add. case_decide as Hc; simpl.
  - split; [done|]. intros [Hm Hsz]. destruct Hc as [[y Hy]|?]; [|lia].
    by rewrite Hm in Hy.
  - split; [|done]. intros _. split; [|lia].
    destruct (m !! r) eqn:Hm; [|done]. destruct Hc. by eauto.
Qed.

(** X1: on a freshly constructed object every lookup reports not-found,
    whatever the storage held before construction and with any budget
    (the bucket chains are empty, so no loop body runs). *)
Theorem fresh_object_finds_nothing S raw st fuel r :
  length (_entries raw) = S →
  dwarf_cfa_stack_ctor S raw = Ok (tt, st) →
  get_register_rule fuel r st = Ok (None, st).
Proof.
  intros Hlen Hctor. destruct (ctor_Inv _ _ _ Hlen Hctor) as [_ HI].
  rewrite (get_register_rule_Inv _ _ _ _ _ HI); [done|].
  intros l Hl. apply lookup_replicate_1 in Hl as [-> _]. simpl. lia.
Qed.

(** X2: in a reachable state [add_register] returns, and it returns
    failure exactly when the register is absent and the free list is
    empty; a failing call leaves the object as it was. *)
Theorem add_register_fails_iff S st fuel r rl v :
  reachable S st → S ≤ fuel →
  ∃ b st',
    add_register fuel r rl v st = Ok (b, st')
    ∧ (b = false ↔
       get_register_rule fuel r st = Ok (None, st) ∧ _free_list st = None)
    ∧ (b = false → st' = st).
Proof.
  intros (_ & m & fl & chs & HI)%reachable_Inv Hfuel.
  destruct (add_register_Inv _ _ _ _ _ HI fuel r rl v Hfuel)
    as (st' & _ & _ & Hadd & _ & Hsame).
  exists (abs_add S m r (rl, v)).1, st'. split_and!; [done| |done].
  pose proof (inv_size _ _ _ _ _ HI) as Hsz.
  rewrite abs_add_false by lia.
  rewrite (Inv_get _ _ _ _ _ _ r HI Hfuel), (Inv_free_list_None _ _ _ _ _ HI).
  split; [by intros [-> ?]|]. by intros [[= ->] ?].
Qed.

(** X3: in a reachable state, after a successful [add_register] the
    register reads back the rule and value just written, after a failing
    one it is still absent; the answer for every other register, in the
    same bucket or not, is the same as before the call. *)
Theorem add_register_then_lookup S st fuel r rl v b st' :
  reachable S st → S ≤ fuel →
  add_register fuel r rl v st = Ok (b, st') →
  get_register_rule fuel r st'
  = Ok (if b then Some (rl, v) else None, st')
  ∧ ∀ r' res, r' ≠ r →
      get_register_rule fuel r' st = Ok (res, st) →
      get_register_rule fuel r' st' = Ok (res, st').
Proof.
  intros (_ & m & fl & chs & HI)%reachable_Inv Hfuel Hadd.
  destruct (add_register_Ok_Inv _ _ _ _ _ HI _ _ _ _ _ _ Hadd)
    as (Hb & Htrue & Hfalse & fl' & chs' & HI').
  pose proof (inv_size _ _ _ _ _ HI) as Hsz.
  destruct b.
  - rewrite (Htrue eq_refl) in HI'. split.
    + by rewrite (Inv_get _ _ _ _ _ _ r HI' Hfuel), lookup_insert_eq.
    + intros r' res Hne.
      rewrite (Inv_get _ _ _ _ _ _ r' HI Hfuel).
      rewrite (Inv_get _ _ _ _ _ _ r' HI' Hfuel).
      rewrite lookup_insert_ne by done. by intros [= ->].
  - rewrite (Hfalse eq_refl). symmetry in Hb.
    apply abs_add_false in Hb as [Hm _]; [|lia]. split; [|done].
    by rewrite (Inv_get _ _ _ _ _ _ r HI Hfuel), Hm.
Qed.

(** X4: in a reachable state, repeating an [add_register] call with the
    same arguments returns the same flag and changes nothing more: the
    object after the second call is the object after the first. *)
Theorem add_register_idempotent S st fuel r rl v b st' :
  reachable S st → S ≤ fuel →
  add_register fuel r rl v st = Ok (b, st') →
  add_register fuel r rl v st' = Ok (b, st').
Proof.
  intros (_ & m & fl & chs & HI)%reachable_Inv Hfuel Hadd.
  destruct (add_register_Ok_Inv _ _ _ _ _ HI _ _ _ _ _ _ Hadd)
    as (Hb & Htrue & Hfalse & fl' & chs' & HI').
  destruct b; [|by rewrite (Hfalse eq_refl) in *].
  rewrite (Htrue eq_refl) in HI'.
  assert (Hfuel' : ∀ l, chs' !! bucket_of r = Some l → length l ≤ fuel).
  { intros l Hl. pose proof (Inv_chain_length _ _ _ _ _ HI' _ _ Hl). lia. }
  destruct (add_register_update _ _ _ _ _ HI' fuel r rl v (rl, v) Hfuel')
    as (i & Hi & Hr & ->); [by rewrite lookup_insert_eq|].
  do 2 f_equal.
  assert (payload (_entries st') i = Some (rl, v)) as Hpay.
  { assert (<[r:=(rl, v)]> m !! r = Some (rl, v)) as Hm
      by (by rewrite lookup_insert_eq).
    apply (inv_abs _ _ _ _ _ HI') in Hm as (j & Hj & Hrj & Hx).
    assert (j = i) as -> by (apply (inv_uniq _ _ _ _ _ HI'); congruence).
    done. }
  unfold updated. destruct st' as [tbl pos free es]. simpl in *. f_equal.
  apply list_eq. intros j. destruct (decide (i = j)) as [<-|Hne].
  - rewrite list_lookup_alter_eq. unfold payload in Hpay.
    destruct (es !! i) as [[r0 rl0 v0 nx]|]; [|done].
    simpl in *. by injection Hpay as -> ->.
  - by rewrite list_lookup_alter_ne.
Qed.

(** X7: in every reachable state each entry linked into the chain of
    bucket [b] of the active row carries a register number whose
    remainder modulo 15 is [b]. *)
Theorem entries_sit_in_their_bucket S st heads b head l i e :
  reachable S st →
  _table_stack st !! _table_pos st = Some heads →
  heads !! b = Some head →
  chain (_entries st) head l →
  i ∈ l →
  _entries st !! i = Some e →
  bucket_of (regnum e) = b ∧ (regnum e mod 15 = N.of_nat b)%N.
Proof.
  intros (_ & m & fl & chs & HI)%reachable_Inv Hheads Hb Hc Hi He.
  destruct (Inv_row _ _ _ _ _ HI) as (row0 & Hrow & Hrow0).
  rewrite Hrow in Hheads. injection Hheads as <-.
  destruct (Forall2_lookup_l _ _ _ _ _ Hrow0 Hb) as (l' & Hl' & Hc').
  rewrite (chain_functional _ _ _ _ Hc Hc') in Hi.
  pose proof (inv_place _ _ _ _ _ HI _ _ _ Hl' Hi) as Hpl.
  unfold regnum_at in Hpl. rewrite He in Hpl. simpl in Hpl.
  split; [done|]. rewrite <- Hpl. unfold bucket_of. by rewrite N2Nat.id.
Qed.

(** X8: in every reachable state of an object of capacity [S], the
    registers that can be looked up, counted without repetition, and the
    entries on the free list together number at most [S]. *)
Theorem at_most_S_registers_stored S st fuel rs fl :
  reachable S st → S ≤ fuel →
  NoDup rs →
  (∀ r, r ∈ rs → ∃ x, get_register_rule fuel r st = Ok (Some x, st)) →
  chain (_entries st) (_free_list st) fl →
  length rs + length fl ≤ S.
Proof.
  intros (_ & m & fl0 & chs & HI)%reachable_Inv Hfuel Hnd Hall Hfl.
  rewrite (chain_functional _ _ _ _ Hfl (inv_free _ _ _ _ _ HI)).
  pose proof (inv_size _ _ _ _ _ HI) as Hsz.
  assert (length rs ≤ size m); [|lia].
  rewrite <- size_dom, <- (size_list_to_set (C := gset N) rs) by done.
  apply subseteq_size. intros r Hr%elem_of_list_to_set.
  destruct (Hall r Hr) as [x Hx].
  rewrite (Inv_get _ _ _ _ _ _ r HI Hfuel) in Hx. injection Hx as Hx.
  apply elem_of_dom. by rewrite Hx.
Qed.

Lemma abs_adds_grows S ops : ∀ m,
  dom m ⊆ dom (abs_adds S m ops).2
  ∧ ∀ r, r ∉ ops.*1 → (abs_adds S m ops).2 !! r = m !! r.
Proof.
  induction ops as [|[r x] ops IH]; intros m; simpl; [done|].
  destruct (abs_add S m r x) as [b m1] eqn:Hstep.
  destruct (IH m1) as [Hdom Hother].
  destruct (abs_adds S m1 ops) as [bs m2]. simpl in *.
  assert (dom m ⊆ dom m1 ∧ ∀ r', r' ≠ r → m1 !! r' = m !! r') as [Hd1 Ho1].
  { unfold abs_add in Hstep. case_decide; injection Hstep as <- <-.
    - split; [rewrite dom_insert_L; set_solver|].
      intros r' Hne. by rewrite lookup_insert_ne.
    - done. }
  split; [set_solver|].
  intros r' Hr'. apply not_elem_of_cons in Hr' as [Hne Hr'].
  rewrite Hother by done. by apply Ho1.
Qed.

(** X5: [add_register] never releases an entry.  Across any sequence of
    calls from a reachable state, a register that could be looked up
    before can be looked up afterwards, with its old rule and value unless
    the sequence wrote it, and the free list does not get longer. *)
Theorem bindings_persist S st fuel ops bs st' :
  reachable S st → S ≤ fuel →
  add_registers fuel ops st = Ok (bs, st') →
  (∀ r x,
     get_register_rule fuel r st = Ok (Some x, st) →
     ∃ y, get_register_rule fuel r st' = Ok (Some y, st')
          ∧ (r ∉ ops.*1 → y = x))
  ∧ (∀ fl fl',
       chain (_entries st) (_free_list st) fl →
       chain (_entries st') (_free_list st') fl' →
       length fl' ≤ length fl).
Proof.
  intros (_ & m & fl0 & chs & HI)%reachable_Inv Hfuel Hadds.
  destruct (add_registers_Inv S fuel ops _ _ _ _ HI Hfuel)
    as (st1 & fl1 & chs1 & Hadds1 & HI1).
  rewrite Hadds in Hadds1. injection Hadds1 as _ <-.
  destruct (abs_adds_grows S ops m) as [Hdom Hother].
  split.
  - intros r x. rewrite (Inv_get _ _ _ _ _ _ r HI Hfuel). intros [= Hm].
    assert (is_Some ((abs_adds S m ops).2 !! r)) as [y Hy].
    { apply elem_of_dom, Hdom, elem_of_dom. by eauto. }
    exists y. rewrite (Inv_get _ _ _ _ _ _ r HI1 Hfuel), Hy.
    split; [done|]. intros Hr. rewrite (Hother r Hr), Hm in Hy.
    by injection Hy.
  - intros fl fl' Hfl Hfl'.
    rewrite (chain_functional _ _ _ _ Hfl (inv_free _ _ _ _ _ HI)).
    rewrite (chain_functional _ _ _ _ Hfl' (inv_free _ _ _ _ _ HI1)).
    pose proof (inv_size _ _ _ _ _ HI) as Hsz.
    pose proof (inv_size _ _ _ _ _ HI1) as Hsz1.
    assert (size m ≤ size (abs_adds S m ops).2); [|lia].
    rewrite <- !size_dom. by apply subseteq_size.
Qed.

(** X6: pool exhaustion is permanent.  Once [add_register] has failed in
    a reachable state, then after any further sequence of calls every
    [add_register] of a register that cannot be looked up fails as well
    and leaves the object unchanged. *)
Theorem exhaustion_is_permanent
    S st fuel r rl v st1 ops bs st' r' rl' v' :
  reachable S st → S ≤ fuel →
  add_register fuel r rl v st = Ok (false, st1) →
  add_registers fuel ops st = Ok (bs, st') →
  get_register_rule fuel r' st' = Ok (None, st') →
  add_register fuel r' rl' v' st' = Ok (false, st').
Proof.
  intros (_ & m & fl0 & chs & HI)%reachable_Inv Hfuel Hfail Hadds Hget.
  pose proof (inv_size _ _ _ _ _ HI) as Hsz.
  destruct (add_register_Ok_Inv _ _ _ _ _ HI _ _ _ _ _ _ Hfail)
    as (Hb & _ & _ & _).
  symmetry in Hb. apply abs_add_false in Hb as [_ Hfull]; [|lia].
  destruct (add_registers_Inv S fuel ops _ _ _ _ HI Hfuel)
    as (st2 & fl2 & chs2 & Hadds2 & HI2).
  rewrite Hadds in Hadds2. injection Hadds2 as _ <-.
  pose proof (inv_size _ _ _ _ _ HI2) as Hsz2.
  destruct (abs_adds_grows S ops m) as [Hdom _].
  apply subseteq_size in Hdom. rewrite !size_dom in Hdom.
  rewrite (Inv_get _ _ _ _ _ _ r' HI2 Hfuel) in Hget. injection Hget as Hm'.
  destruct (add_register_Inv _ _ _ _ _ HI2 fuel r' rl' v' Hfuel)
    as (st3 & _ & _ & Hadd & _ & Hsame).
  assert ((abs_add S (abs_adds S m ops).2 r' (rl', v')).1 = false) as Hf.
  { apply abs_add_false; [lia|]. split; [done|lia]. }
  rewrite Hf in Hadd. by rewrite (Hsame Hf) in Hadd.
Qed.

Lemma first_distinct_from_app rs : ∀ seen,
  NoDup seen →
  NoDup (first_distinct_from seen rs)
  ∧ ∃ ext, first_distinct_from seen rs = seen ++ ext.
Proof.
  induction rs as [|r rs IH]; intros seen Hnd; simpl.
  - split; [done|]. exists []. by rewrite (right_id_L [] (++)).
  - case_decide as Hr; [by apply IH|].
    destruct (IH (seen ++ [r])) as [Hnd' [ext Hext]].
    { apply NoDup_app. split_and!; [done| |apply NoDup_singleton].
      intros y Hy ->%list_elem_of_singleton. done. }
    split; [done|]. exists (r :: ext). by rewrite Hext, <- (assoc_L (++)).
Qed.

Lemma elem_of_take_prefix (l k : list N) n r :
  NoDup (l ++ k) → r ∈ l → (r ∈ take n (l ++ k) ↔ r ∈ take n l).
Proof.
  intros Hnd Hr. rewrite take_app, elem_of_app. split; [|by left].
  intros [?|Hk%subseteq_take]; [done|].
  apply NoDup_app in Hnd as (_ & Hdisj & _). by destruct (Hdisj r Hr).
Qed.

Lemma abs_add_admitted S m (seen : list N) r x :
  NoDup seen → dom m = list_to_set (take S seen) →
  let seen' := if decide (r ∈ seen) then seen else seen ++ [r] in
  ∃ b : bool, abs_add S m r x = (b, if b then <[r := x]> m else m)
       ∧ (b = true ↔ r ∈ take S seen')
       ∧ dom (if b then <[r := x]> m else m) = list_to_set (take S seen').
Proof.
  intros Hnd Hdom seen'.
  assert (size m = length (take S seen)) as Hsz.
  { rewrite <- size_dom, Hdom, size_list_to_set; [done|].
    apply (sublist_NoDup _ seen); [done|apply sublist_take]. }
  rewrite length_take in Hsz.
  assert (Hin : is_Some (m !! r) ↔ r ∈ take S seen).
  { by rewrite <- elem_of_dom, Hdom, elem_of_list_to_set. }
  unfold abs_add, seen'. destruct (decide (r ∈ seen)) as [Hr|Hr].
  - destruct (decide (r ∈ take S seen)) as [Hk|Hk].
    + exists true. rewrite decide_True by (left; by apply Hin).
      split_and!; [done..|]. rewrite dom_insert_L, Hdom.
      assert (r ∈ (list_to_set (take S seen) : gset N))
        by (by apply elem_of_list_to_set).
      set_solver.
    + exists false. rewrite decide_False; [done|].
      intros [?%Hin|Hlt]; [done|]. apply Hk. rewrite take_ge by lia. done.
  - assert (r ∉ take S seen) as Hk by (intros ?%subseteq_take; done).
    destruct (decide (length seen < S)) as [Hlt|Hge].
    + exists true. rewrite decide_True by (right; lia).
      rewrite (take_ge (seen ++ [r])) by (rewrite length_app; simpl; lia).
      split_and!; [done| |].
      * split; [|done]. intros _. apply elem_of_app. right. by left.
      * rewrite dom_insert_L, Hdom, (take_ge seen) by lia.
        rewrite list_to_set_snoc_L. set_solver.
    + exists false. rewrite decide_False.
      2:{ intros [?%Hin|?]; [done|lia]. }
      rewrite take_app_le by lia. done.
Qed.

(** When the pool overflows, the abstract map keeps the first [S]
    distinct registers, each with the values last written to it. *)
Lemma abs_adds_admitted S ops : ∀ m seen,
  NoDup seen → dom m = list_to_set (take S seen) →
  (abs_adds S m ops).1
  = (λ r, bool_decide (r ∈ take S (first_distinct_from seen ops.*1)))
      <$> ops.*1
  ∧ ∀ r, (abs_adds S m ops).2 !! r
         = if decide (r ∈ take S (first_distinct_from seen ops.*1))
           then match last_write r ops with
                | Some y => Some y
                | None => m !! r
                end
           else None.
Proof.
  induction ops as [|[r x] ops IH]; intros m seen Hnd Hdom; simpl.
  - split; [done|]. intros r. case_decide as Hr; [done|].
    apply not_elem_of_dom. by rewrite Hdom, elem_of_list_to_set.
  - destruct (abs_add_admitted S m seen r x Hnd Hdom)
      as (b & -> & Hb & Hdom1).
    set (seen' := if decide (r ∈ seen) then seen else seen ++ [r]) in *.
    assert (NoDup seen') as Hnd'.
    { unfold seen'. case_decide; [done|].
      apply NoDup_app. split_and!; [done| |apply NoDup_singleton].
      intros y Hy ->%list_elem_of_singleton. done. }
    assert (r ∈ seen') as Hr'.
    { unfold seen'. case_decide; [done|]. apply elem_of_app. right.
      by left. }
    destruct (first_distinct_from_app ops.*1 seen' Hnd') as [Hndf [ext Hext]].
    assert (Hkeep : r ∈ take S (first_distinct_from seen' ops.*1) ↔ b = true).
    { rewrite Hb, Hext. apply elem_of_take_prefix; [|done].
      by rewrite <- Hext. }
    destruct (IH _ seen' Hnd' Hdom1) as [Hflags Hmap].
    destruct (abs_adds S (if b then <[r:=x]> m else m) ops) as [bs m2].
    simpl in *. split.
    + f_equal; [|done]. destruct b.
      * symmetry. apply bool_decide_eq_true. by apply Hkeep.
      * symmetry. apply bool_decide_eq_false. rewrite Hkeep. done.
    + intros r0. rewrite Hmap.
      change (list_fmap (N * (dwarf_cfa_reg_rule_t * T))%type N fst ops)
        with (ops.*1).
      destruct (decide (r0 ∈ take S (first_distinct_from seen' ops.*1)))
        as [Hr0|]; [|done].
      destruct (last_write r0 ops); [done|].
      destruct (decide (r = r0)) as [<-|Hne].
      * apply Hkeep in Hr0 as ->. by rewrite lookup_insert_eq.
      * destruct b; [by rewrite lookup_insert_ne|done].
Qed.

(** X9: when more than [S] distinct registers are written to a fresh
    object, the first [S] distinct ones, in the order of their first
    call, are stored and the others are dropped: a call succeeds exactly
    when its register is among those first [S], and afterwards these
    registers read back the values last written to them while every other
    register is absent.  No call sequence makes the object fault. *)
Theorem overflow_keeps_first_registers S raw st0 fuel ops :
  length (_entries raw) = S →
  dwarf_cfa_stack_ctor S raw = Ok (tt, st0) →
  S ≤ fuel →
  ∃ st,
    add_registers fuel ops st0
    = Ok ((λ r, bool_decide (r ∈ admitted S ops.*1)) <$> ops.*1, st)
    ∧ ∀ r, get_register_rule fuel r st
           = Ok (if decide (r ∈ admitted S ops.*1) then last_write r ops
                 else None, st).
Proof.
  intros Hlen Hctor Hfuel.
  destruct (ctor_Inv _ _ _ Hlen Hctor) as [_ HI].
  destruct (add_registers_Inv S fuel ops _ _ _ _ HI Hfuel)
    as (st & fl & chs & Hadds & HI').
  destruct (abs_adds_admitted S ops ∅ []) as [Hflags Hmap].
  { apply NoDup_nil_2. }
  { by rewrite take_nil, dom_empty_L. }
  exists st. split; [by rewrite Hadds, Hflags|].
  intros r. rewrite (Inv_get _ _ _ _ _ _ r HI' Hfuel), Hmap.
  unfold admitted. case_decide; [|done].
  rewrite lookup_empty. by destruct (last_write r ops).
Qed.

(** *** What a returning [add_register] did, in any state *)

Lemma load_Ok_inv {A} (f : dwarf_cfa_reg_entry T → A) i st a st' :
  load f i st = Ok (a, st') →
  ∃ e, _entries st !! i = Some e ∧ a = f e ∧ st' = st.
Proof.
  unfold load. destruct (_entries st !! i) as [e|]; [|done].
  intros [= <- <-]. by exists e.
Qed.

Lemma store_Ok_inv (f : dwarf_cfa_reg_entry T → dwarf_cfa_reg_entry T)
    i st u st' :
  store f i st = Ok (u, st') →
  ∃ e, _entries st !! i = Some e
       ∧ st' = mk_stack (_table_stack st) (_table_pos st) (_free_list st)
                 (<[i := f e]> (_entries st)).
Proof.
  unfold store. destruct (_entries st !! i) as [e|]; [|done].
  intros [= _ <-]. by exists e.
Qed.

Lemma add_register_walk_Ok fuel r rl v : ∀ p st w st1,
  add_register_walk fuel r rl v p st = Ok (w, st1) →
  (w = inl true
   ∧ ∃ i e, _entries st !! i = Some e ∧ regnum e = r
            ∧ st1 = mk_stack (_table_stack st) (_table_pos st)
                      (_free_list st)
                      (<[i := mk_entry r rl v (next e)]> (_entries st)))
  ∨ (∃ parent, w = inr parent ∧ st1 = st).
Proof.
  induction fuel as [|fuel IH]; intros p st w st1.
  - destruct p; [by cbv|]. intros [= <- <-]. right. by eexists.
  - destruct p as [i|]; [|intros [= <- <-]; right; by eexists].
    simpl. intros (r' & st2 & (e & He & -> & ->)%load_Ok_inv & Hk)%bind_Ok_inv.
    destruct (regnum e =? r)%N eqn:Hr.
    + apply N.eqb_eq in Hr.
      apply bind_Ok_inv in Hk as (u1 & st3 & Hs1 & Hk).
      apply store_Ok_inv in Hs1 as (e1 & He1 & ->).
      apply bind_Ok_inv in Hk as (u2 & st4 & Hs2 & Hk).
      apply store_Ok_inv in Hs2 as (e2 & He2 & ->). simpl in *.
      injection Hk as <- <-. left. split; [done|]. exists i, e.
      split_and!; [done..|].
      rewrite He in He1. injection He1 as <-.
      rewrite list_lookup_insert_eq in He2 by (by eapply lookup_lt_Some).
      injection He2 as <-. rewrite list_insert_insert_eq.
      unfold with_rule, with_value. simpl. by rewrite Hr.
    + apply bind_Ok_inv in Hk as (nx & st3 & Hld & Hk).
      apply load_Ok_inv in Hld as (e' & He' & -> & ->).
      destruct (next e'); [by apply IH in Hk|].
      injection Hk as <- <-. right. by eexists.
Qed.

(** X10: whatever state it is called in, a returning [add_register]
    leaves the current-row index and the sizes of the entry array and of
    the table as they were, changes no bucket head other than the one of
    the register's bucket in the current row, and leaves in every entry
    either the register number, rule and value it held or exactly the
    arguments of the call; a call that returns failure changes nothing. *)
Theorem add_register_frame st fuel r rl v b st' :
  add_register fuel r rl v st = Ok (b, st') →
  _table_pos st' = _table_pos st
  ∧ length (_entries st') = length (_entries st)
  ∧ length (_table_stack st') = length (_table_stack st)
  ∧ (∀ row b', row ≠ _table_pos st ∨ b' ≠ bucket_of r →
               bucket_head st' row b' = bucket_head st row b')
  ∧ (∀ j e, _entries st !! j = Some e →
       ∃ e', _entries st' !! j = Some e'
             ∧ ((regnum e', rule e', value e')
                = (regnum e, rule e, value e)
                ∨ (regnum e', rule e', value e') = (r, rl, v)))
  ∧ (b = false → st' = st).
Proof.
  unfold add_register.
  intros (pos & st1 & [= <- <-] & Hk)%bind_Ok_inv.
  apply bind_Ok_inv in Hk as (head & st2 & Hhead & Hk).
  assert (st2 = st) as ->.
  { unfold table_load in Hhead.
    destruct (_table_stack st !! _table_pos st) as [row|]; [|done].
    destruct (row !! bucket_of r); [|done]. by injection Hhead as _ <-. }
  apply bind_Ok_inv in Hk as (w & st3 & Hw & Hk).
  apply add_register_walk_Ok in Hw
    as [(-> & i & e & He & Hr & ->)|(parent & -> & ->)].
  { injection Hk as <- <-. simpl.
    split_and!; [done|by rewrite length_insert|done|done| |done].
    intros j ej Hj. destruct (decide (i = j)) as [<-|Hne].
    - rewrite list_lookup_insert_eq by (by eapply lookup_lt_Some).
      eexists. split; [done|]. by right.
    - rewrite list_lookup_insert_ne by done. eexists. split; [done|].
      by left. }
  apply bind_Ok_inv in Hk as (entry & st4 & [= <- <-] & Hk).
  destruct (_free_list st) as [e|] eqn:Hfree.
  2:{ injection Hk as <- <-.
      split_and!; [done..| |done]. intros j ej Hj. eexists.
      split; [done|]. by left. }
  apply bind_Ok_inv in Hk as (nx & st5 & Hld & Hk).
  apply load_Ok_inv in Hld as (ee & Hee & -> & ->).
  pose proof (lookup_lt_Some _ _ _ Hee) as Hlt.
  apply bind_Ok_inv in Hk as (u0 & st6 & [= _ <-] & Hk).
  apply bind_Ok_inv in Hk as (u1 & st7 & Hs1 & Hk).
  apply store_Ok_inv in Hs1 as (e1 & He1 & ->). simpl in *.
  rewrite Hee in He1. injection He1 as <-.
  apply bind_Ok_inv in Hk as (u2 & st8 & Hs2 & Hk).
  apply store_Ok_inv in Hs2 as (e2 & He2 & ->). simpl in *.
  rewrite list_lookup_insert_eq in He2 by done. injection He2 as <-.
  rewrite list_insert_insert_eq in Hk.
  apply bind_Ok_inv in Hk as (u3 & st9 & Hs3 & Hk).
  apply store_Ok_inv in Hs3 as (e3 & He3 & ->). simpl in *.
  rewrite list_lookup_insert_eq in He3 by done. injection He3 as <-.
  rewrite list_insert_insert_eq in Hk.
  apply bind_Ok_inv in Hk as (u4 & st10 & Hs4 & Hk).
  apply store_Ok_inv in Hs4 as (e4 & He4 & ->). simpl in *.
  rewrite list_lookup_insert_eq in He4 by done. injection He4 as <-.
  rewrite list_insert_insert_eq in Hk.
  unfold with_next at 1, with_value, with_rule, with_regnum in Hk.
  simpl in Hk.
  set (es1 := <[e := mk_entry r rl v None]> (_entries st)) in *.
  assert (Hes1 : ∀ j ej, _entries st !! j = Some ej →
            ∃ e', es1 !! j = Some e'
                  ∧ ((regnum e', rule e', value e')
                     = (regnum ej, rule ej, value ej)
                     ∨ (regnum e', rule e', value e') = (r, rl, v))).
  { intros j ej Hj. unfold es1. destruct (decide (e = j)) as [<-|Hne].
    - rewrite list_lookup_insert_eq by done. eexists. split; [done|].
      by right.
    - rewrite list_lookup_insert_ne by done. eexists. split; [done|].
      by left. }
  apply bind_Ok_inv in Hk as (u5 & st11 & Hlink & Hk).
  injection Hk as <- <-.
  destruct parent as [q|].
  - apply store_Ok_inv in Hlink as (eq & Heq & ->). simpl in *.
    split_and!; [done|by unfold es1; rewrite !length_insert|done|done| |done].
    intros j ej Hj. destruct (Hes1 j ej Hj) as (e' & He' & Hpay).
    destruct (decide (q = j)) as [<-|Hne].
    + rewrite list_lookup_insert_eq by (by eapply lookup_lt_Some).
      pose proof (eq_trans (eq_sym Heq) He') as [= <-]. eexists.
      by split.
    + rewrite list_lookup_insert_ne by done. by exists e'.
  - apply bind_Ok_inv in Hlink as (pos' & st12 & [= <- <-] & Hlink).
    unfold table_store in Hlink. simpl in Hlink.
    destruct (_table_stack st !! _table_pos st) as [row|] eqn:Hrow; [|done].
    case_decide as Hb; [|done].
    assert (Hst : st11
                  = mk_stack
                      (<[_table_pos st := <[bucket_of r := Some e]> row]>
                         (_table_stack st))
                      (_table_pos st) (next ee) es1)
      by (by injection Hlink).
    rewrite Hst. simpl.
    split_and!; [done|by unfold es1; rewrite length_insert
                |by rewrite length_insert| |exact Hes1|done].
    intros row' b' Hne. unfold bucket_head. simpl.
    destruct (decide (row' = _table_pos st)) as [->|Hrow'].
    + rewrite list_lookup_insert_eq by (by eapply lookup_lt_Some).
      rewrite Hrow. simpl. destruct Hne as [?|Hb']; [done|].
      by rewrite list_lookup_insert_ne.
    + by rewrite list_lookup_insert_ne.
Qed.

End More.

Lemma reachable_two2 : reachable 2 two2.
Proof.
  apply (reach_add 2 one2 2 20 DWARF_CFA_REG_RULE_OFFSET 16%Z true two2);
    [exact reachable_one2|reflexivity].
Qed.

Lemma chain_two2 : chain (_entries two2) (Some 0) [0; 1].
Proof.
  econstructor; [reflexivity|]. econstructor; [reflexivity|]. constructor.
Qed.

Lemma fresh_object_finds_nothing_witness :
  get_register_rule 0 5 fresh2 = Ok (None, fresh2).
Proof.
  apply (fresh_object_finds_nothing 2 raw2 fresh2 0 5); reflexivity.
Defined.

Lemma add_register_fails_iff_witness :
  ∃ b st',
    add_register 2 7 DWARF_CFA_REG_RULE_OFFSET 4%Z two2 = Ok (b, st')
    ∧ (b = false ↔
       get_register_rule 2 7 two2 = Ok (None, two2)
       ∧ _free_list two2 = None)
    ∧ (b = false → st' = two2).
Proof.
  apply (add_register_fails_iff 2 two2 2 7 DWARF_CFA_REG_RULE_OFFSET 4%Z).
  - exact reachable_two2.
  - lia.
Defined.

Lemma add_register_then_lookup_witness :
  get_register_rule 2 20 two2
  = Ok (if true then Some (DWARF_CFA_REG_RULE_OFFSET, 16%Z) else None, two2)
  ∧ ∀ r' res, r' ≠ 20%N →
      get_register_rule 2 r' one2 = Ok (res, one2) →
      get_register_rule 2 r' two2 = Ok (res, two2).
Proof.
  apply (add_register_then_lookup 2 one2 2 20
           DWARF_CFA_REG_RULE_OFFSET 16%Z true two2).
  - exact reachable_one2.
  - lia.
  - reflexivity.
Defined.

Lemma add_register_idempotent_witness :
  add_register 2 20 DWARF_CFA_REG_RULE_OFFSET 16%Z two2 = Ok (true, two2).
Proof.
  apply (add_register_idempotent 2 one2 2 20
           DWARF_CFA_REG_RULE_OFFSET 16%Z true two2).
  - exact reachable_one2.
  - lia.
  - reflexivity.
Defined.

Lemma bindings_persist_witness :
  (∀ r x,
     get_register_rule 2 r one2 = Ok (Some x, one2) →
     ∃ y, get_register_rule 2 r two2 = Ok (Some y, two2)
          ∧ (r ∉ [20%N] → y = x))
  ∧ (∀ fl fl',
       chain (_entries one2) (_free_list one2) fl →
       chain (_entries two2) (_free_list two2) fl' →
       length fl' ≤ length fl).
Proof.
  apply (bindings_persist 2 one2 2
           [(20%N, (DWARF_CFA_REG_RULE_OFFSET, 16%Z))] [true] two2).
  - exact reachable_one2.
  - lia.
  - reflexivity.
Defined.

Lemma exhaustion_is_permanent_witness :
  add_register 2 9 DWARF_CFA_REG_RULE_OFFSET 1%Z full2 = Ok (false, full2).
Proof.
  apply (exhaustion_is_permanent 2 two2 2
           7 DWARF_CFA_REG_RULE_OFFSET 4%Z two2
           [(5%N, (DWARF_CFA_REG_RULE_OFFSET, 24%Z))] [true] full2
           9 DWARF_CFA_REG_RULE_OFFSET 1%Z).
  - exact reachable_two2.
  - lia.
  - reflexivity.
  - reflexivity.
  - reflexivity.
Defined.

Lemma entries_sit_in_their_bucket_witness :
  bucket_of (regnum (mk_entry 20 DWARF_CFA_REG_RULE_OFFSET 16%Z None)) = 5
  ∧ (regnum (mk_entry 20 DWARF_CFA_REG_RULE_OFFSET 16%Z None) mod 15
     = N.of_nat 5)%N.
Proof.
  apply (entries_sit_in_their_bucket 2 two2
           (<[5 := Some 0]> (replicate TABLE_BUCKETS None)) 5 (Some 0)
           [0; 1] 1 (mk_entry 20 DWARF_CFA_REG_RULE_OFFSET 16%Z None)).
  - exact reachable_two2.
  - reflexivity.
  - reflexivity.
  - exact chain_two2.
  - apply list_elem_of_further, list_elem_of_here.
  - reflexivity.
Defined.

Lemma at_most_S_registers_stored_witness :
  length [5%N; 20%N] + length (@nil nat) ≤ 2.
Proof.
  apply (at_most_S_registers_stored 2 two2 2 [5%N; 20%N] []).
  - exact reachable_two2.
  - lia.
  - apply NoDup_cons. split; [|apply NoDup_singleton].
    intros Hin%list_elem_of_singleton. discriminate Hin.
  - intros r Hr. apply elem_of_cons in Hr as [->|Hr].
    + eexists. reflexivity.
    + apply list_elem_of_singleton in Hr as ->. eexists. reflexivity.
  - constructor.
Defined.

Lemma overflow_keeps_first_registers_witness :
  ∃ st,
    add_registers 2 ops_overflow fresh2
    = Ok ((λ r, bool_decide (r ∈ admitted 2 ops_overflow.*1))
            <$> ops_overflow.*1, st)
    ∧ ∀ r, get_register_rule 2 r st
           = Ok (if decide (r ∈ admitted 2 ops_overflow.*1)
                 then last_write r ops_overflow else None, st).
Proof.
  apply (overflow_keeps_first_registers 2 raw2 fresh2 2 ops_overflow).
  - reflexivity.
  - reflexivity.
  - lia.
Defined.

(** On the example: the call for register 7 is the only one that fails,
    and register 5 ends with its second value. *)
Example overflow_example :
  admitted 2 ops_overflow.*1 = [5%N; 20%N]
  ∧ add_registers 2 ops_overflow fresh2 = Ok ([true; true; false; true], full2)
  ∧ last_write 5 ops_overflow = Some (DWARF_CFA_REG_RULE_OFFSET, 24%Z).
Proof. split_and!; reflexivity. Qed.

Lemma add_register_frame_witness :
  _table_pos two2 = _table_pos one2
  ∧ length (_entries two2) = length (_entries one2)
  ∧ length (_table_stack two2) = length (_table_stack one2)
  ∧ (∀ row b', row ≠ _table_pos one2 ∨ b' ≠ bucket_of 20 →
               bucket_head two2 row b' = bucket_head one2 row b')
  ∧ (∀ j e, _entries one2 !! j = Some e →
       ∃ e', _entries two2 !! j = Some e'
             ∧ ((regnum e', rule e', value e')
                = (regnum e, rule e, value e)
                ∨ (regnum e', rule e', value e')
                  = (20%N, DWARF_CFA_REG_RULE_OFFSET, 16%Z)))
  ∧ (true = false → two2 = one2).
Proof.
  apply (add_register_frame one2 2 20 DWARF_CFA_REG_RULE_OFFSET 16%Z
           true two2).
  reflexivity.
Defined.
